(** * react-modal-manager: registry, instance store, handles and renderer

    A shallow embedding of [src/index.tsx] (the modal store built on
    zustand, [registerComponent], [createModal], [ModalRenderer] and
    [ModalProvider]) together with the properties stated about it.

    JavaScript objects that the program shares by reference (the [Map]
    held in [state.modals], zustand's state object, the [ids] array
    closed over by every handle) live in explicit heaps addressed by
    locations, so that "a new object was allocated" and "the old object
    was not touched" are statements about the model. *)

From Stdlib Require Import String List Arith Lia.
From stdpp Require Import base option list gmap strings.
Import ListNotations.
Local Open Scope string_scope.
Local Open Scope list_scope.

(** ** JavaScript [Map] with string keys

    A [Map] iterates in insertion order, which the renderer relies on,
    so it is kept as an association list.  [set] on a present key keeps
    the key's position, [set] on an absent key appends. *)

Module JsMap.
Section Ops.
Context {V : Type}.

Definition t : Type := list (string * V).

Definition empty : t := [].

Fixpoint get (k : string) (m : t) : option V :=
  match m with
  | [] => None
  | (k', v) :: rest => if String.eqb k' k then Some v else get k rest
  end.

Definition has (k : string) (m : t) : bool :=
  match get k m with Some _ => true | None => false end.

Fixpoint set (k : string) (v : V) (m : t) : t :=
  match m with
  | [] => [(k, v)]
  | (k', v') :: rest =>
      if String.eqb k' k then (k', v) :: rest else (k', v') :: set k v rest
  end.

Fixpoint delete (k : string) (m : t) : t :=
  match m with
  | [] => []
  | (k', v') :: rest =>
      if String.eqb k' k then delete k rest else (k', v') :: delete k rest
  end.

Definition size (m : t) : nat := length m.

Definition keys (m : t) : list string := map fst m.

Definition values (m : t) : list V := map snd m.
End Ops.
Arguments t : clear implicits.
End JsMap.

(** ** Data model *)

(** Heap locations (object identities). *)
Definition loc : Type := nat.

(** A React component type.  The registry compares components by
    reference only, so a component is its identity. *)
Definition ModalComponent : Type := nat.

(** Values found in a props object ([Record<string, unknown>]).
    [VCloseModal i] is the arrow function
    [() => useModalStore.getState().closeModal(i)] built by the renderer. *)
Inductive JsValue : Type :=
| VString (s : string)
| VOpaque (r : nat)
| VCloseModal (captured : string).

(** [interface ModalState]; [None] for [props] is [undefined]. *)
Module ModalState.
Record t : Type := mk {
  id : string;
  componentId : string;
  props : option (gmap string JsValue)
}.
End ModalState.

(** The zustand state object [{ modals, openModal, closeModal }].  The two
    methods are the same closures in every state object (they are carried
    over by the spread and by [Object.assign]), so only [modals] varies. *)
Record StoreState : Type := mkStoreState { modals : loc }.

(** What [createModal] returns: the two methods close over [component]
    and over the array [ids]. *)
Record CreatedModal : Type := mkCreatedModal {
  component : ModalComponent;
  ids : loc
}.

(** The key of a React element.  React keeps the string conversion of
    the value it is given: the string itself when that is a string; for
    any other value the conversion is left uncomputed here. *)
Inductive ReactKey : Type :=
| KeyString (s : string)
| KeyToString (v : JsValue).

Definition to_key (v : JsValue) : ReactKey :=
  match v with
  | VString s => KeyString s
  | _ => KeyToString v
  end.

(** A React element produced by the renderer. *)
Record Element : Type := mkElement {
  el_type : ModalComponent;
  el_key : ReactKey;
  el_props : gmap string JsValue
}.

Record World : Type := mkWorld {
  (** heap of [Map<string, ModalState>] objects *)
  maps : list (JsMap.t ModalState.t);
  (** heap of state objects *)
  objs : list StoreState;
  (** zustand's [let state] *)
  state : loc;
  (** calls made to the listeners, [(state, previousState)], oldest first *)
  notified : list (loc * loc);
  (** [const componentRegistry = new WeakMap()] *)
  componentRegistry : gmap ModalComponent string;
  (** [const componentIdMap = new Map()] *)
  componentIdMap : gmap string ModalComponent;
  (** heap of the [ids] arrays *)
  arrays : list (list string);
  (** how many times [nanoid()] has been called *)
  nanoid_calls : nat;
  (** arguments of [console.warn], oldest first *)
  console : list string
}.

Definition with_maps (f : list (JsMap.t ModalState.t) -> list (JsMap.t ModalState.t))
    (w : World) : World :=
  mkWorld (f (maps w)) (objs w) (state w) (notified w) (componentRegistry w)
          (componentIdMap w) (arrays w) (nanoid_calls w) (console w).

Definition with_objs (f : list StoreState -> list StoreState) (w : World) : World :=
  mkWorld (maps w) (f (objs w)) (state w) (notified w) (componentRegistry w)
          (componentIdMap w) (arrays w) (nanoid_calls w) (console w).

Definition with_state (s : loc) (w : World) : World :=
  mkWorld (maps w) (objs w) s (notified w) (componentRegistry w)
          (componentIdMap w) (arrays w) (nanoid_calls w) (console w).

Definition with_notified (f : list (loc * loc) -> list (loc * loc)) (w : World) : World :=
  mkWorld (maps w) (objs w) (state w) (f (notified w)) (componentRegistry w)
          (componentIdMap w) (arrays w) (nanoid_calls w) (console w).

Definition with_registry (r : gmap ModalComponent string)
    (m : gmap string ModalComponent) (w : World) : World :=
  mkWorld (maps w) (objs w) (state w) (notified w) r m
          (arrays w) (nanoid_calls w) (console w).

Definition with_arrays (f : list (list string) -> list (list string)) (w : World) : World :=
  mkWorld (maps w) (objs w) (state w) (notified w) (componentRegistry w)
          (componentIdMap w) (f (arrays w)) (nanoid_calls w) (console w).

Definition with_nanoid_calls (n : nat) (w : World) : World :=
  mkWorld (maps w) (objs w) (state w) (notified w) (componentRegistry w)
          (componentIdMap w) (arrays w) n (console w).

Definition with_console (f : list string -> list string) (w : World) : World :=
  mkWorld (maps w) (objs w) (state w) (notified w) (componentRegistry w)
          (componentIdMap w) (arrays w) (nanoid_calls w) (f (console w)).

(** ** Heap primitives *)

(** [new Map(source)]: a new object with the entries of [source]. *)
Definition new_Map (entries : JsMap.t ModalState.t) (w : World) : loc * World :=
  (length (maps w), with_maps (fun h => h ++ [entries]) w).

(** The entries of the [Map] object at [r]. *)
Definition Map_entries (r : loc) (w : World) : JsMap.t ModalState.t :=
  default JsMap.empty (maps w !! r).

(** [r.set(k, v)], in place. *)
Definition Map_set (r : loc) (k : string) (v : ModalState.t) (w : World) : World :=
  with_maps (fun h => <[r := JsMap.set k v (Map_entries r w)]> h) w.

(** [r.delete(k)], in place. *)
Definition Map_delete (r : loc) (k : string) (w : World) : World :=
  with_maps (fun h => <[r := JsMap.delete k (Map_entries r w)]> h) w.

(** An object literal with a [modals] property. *)
Definition new_obj (o : StoreState) (w : World) : loc * World :=
  (length (objs w), with_objs (fun h => h ++ [o]) w).

Definition obj_at (r : loc) (w : World) : option StoreState := objs w !! r.

(** ** zustand (vanilla store) *)

(** [getState()] followed by reading the object. *)
Definition getState (w : World) : StoreState :=
  default (mkStoreState 0) (obj_at (state w) w).

(** [setState(partial)] once [nextState] is known:
    [if (!Object.is(nextState, state)) {
       previousState = state;
       state = Object.assign({}, state, nextState);
       listeners.forEach(l => l(state, previousState)) }]. *)
Definition setState (nextState : loc) (w : World) : World :=
  if Nat.eqb nextState (state w) then w
  else
    let previousState := state w in
    let assigned := default (getState w) (obj_at nextState w) in
    let '(fresh, w1) := new_obj assigned w in
    with_notified (fun l => l ++ [(fresh, previousState)]) (with_state fresh w1).

(** [set(fn)]: [nextState = fn(state)]. *)
Definition set (fn : loc -> World -> loc * World) (w : World) : World :=
  let '(nextState, w1) := fn (state w) w in
  setState nextState w1.

(** The live mapping, [useModalStore.getState().modals], as a reference
    and as contents. *)
Definition current_modals (w : World) : loc := modals (getState w).

Definition snapshot (w : World) : JsMap.t ModalState.t :=
  Map_entries (current_modals w) w.

(** The world right after [create(...)] and module initialisation. *)
Definition init_world : World :=
  mkWorld [JsMap.empty] [mkStoreState 0] 0 [] ∅ ∅ [] 0 [].

(** ** The program *)

(** JavaScript truthiness of a string, and of [string | undefined]. *)
Definition truthy (s : string) : bool := negb (String.eqb s EmptyString).

Definition truthy_opt (o : option string) : bool :=
  match o with Some s => truthy s | None => false end.

(** [array.pop()]: the last element, or [undefined] on an empty array,
    which is then left alone. *)
Definition Array_pop (a : list string) : option string * list string :=
  match last a with
  | None => (None, a)
  | Some x => (Some x, removelast a)
  end.

Section Program.
(** [nanoid_output n] is what the [n]-th call of [nanoid()] returns. *)
Variable nanoid_output : nat -> string.

Definition nanoid (w : World) : string * World :=
  (nanoid_output (nanoid_calls w), with_nanoid_calls (S (nanoid_calls w)) w).

Definition registerComponent (c : ModalComponent) (w : World) : string * World :=
  let cached := componentRegistry w !! c in
  if truthy_opt cached then (default EmptyString cached, w)
  else
    let '(componentId, w1) := nanoid w in
    (componentId,
     with_registry (<[c := componentId]> (componentRegistry w1))
                   (<[componentId := c]> (componentIdMap w1)) w1).

(** [componentIdMap.get(id)] *)
Definition resolveComponent (i : string) (w : World) : option ModalComponent :=
  componentIdMap w !! i.

Definition openModal (i : string) (c : ModalComponent)
    (p : option (gmap string JsValue)) (w : World) : World :=
  let '(componentId, w0) := registerComponent c w in
  set (fun st w1 =>
         let source := Map_entries (modals (default (mkStoreState 0) (obj_at st w1))) w1 in
         let '(newModals, w2) := new_Map source w1 in
         let w3 := Map_set newModals i (ModalState.mk i componentId p) w2 in
         new_obj (mkStoreState newModals) w3) w0.

Definition closeModal (i : string) (w : World) : World :=
  set (fun st w1 =>
         let source := Map_entries (modals (default (mkStoreState 0) (obj_at st w1))) w1 in
         let '(newModals, w2) := new_Map source w1 in
         let w3 := Map_delete newModals i w2 in
         new_obj (mkStoreState newModals) w3) w.

Definition createModal (c : ModalComponent) (w : World) : CreatedModal * World :=
  (mkCreatedModal c (length (arrays w)), with_arrays (fun h => h ++ [[]]) w).

(** The array [ids] of a handle. *)
Definition stack (h : CreatedModal) (w : World) : list string :=
  default [] (arrays w !! ids h).

(** The [open] method of the object that [createModal] returns. *)
Definition handle_open (h : CreatedModal) (p : option (gmap string JsValue))
    (w : World) : string * World :=
  let '(i, w1) := nanoid w in
  let w2 := with_arrays (fun a => <[ids h := stack h w1 ++ [i]]> a) w1 in
  (i, openModal i (component h) p w2).

(** The [close] method of the object that [createModal] returns. *)
Definition handle_close (h : CreatedModal) (w : World) : World :=
  match Array_pop (stack h w) with
  | (Some i, rest) =>
      let w1 := with_arrays (fun a => <[ids h := rest]> a) w in
      if truthy i then closeModal i w1 else w1
  | (None, _) => w
  end.

(** The two attributes the renderer writes itself,
    [id={modal.id}] and [close={() => ...closeModal(modal.id)}]. *)
Definition injected_props (modal : ModalState.t) : gmap string JsValue :=
  <["close" := VCloseModal (ModalState.id modal)]>
    (<["id" := VString (ModalState.id modal)]> ∅).

(** The object that the JSX attributes build,
    [{ id: modal.id, close: () => ..., ...modal.props }]: the spread
    comes last, so an entry of [modal.props] wins over an injected one. *)
Definition jsx_config (modal : ModalState.t) : gmap string JsValue :=
  default ∅ (ModalState.props modal) ∪ injected_props modal.

(** React's [jsx(type, config, maybeKey)], which the element
    [<Component key={modal.id} ... {...modal.props} />] compiles to:
    [maybeKey] is the key unless [config] has a [key] of its own, which
    then takes its place; either way [key] is no prop of the element. *)
Definition jsx (type : ModalComponent) (config : gmap string JsValue)
    (maybeKey : string) : Element :=
  mkElement type
    (match config !! "key" with
     | Some v => to_key v
     | None => KeyString maybeKey
     end)
    (delete "key" config).

(** The template literal passed to [console.warn]. *)
Definition warning (componentId : string) : string :=
  String.append "Modal component with ID "
                (String.append componentId " not found").

(** The callback of [.map] in [ModalRenderer]. *)
Definition render_modal (modal : ModalState.t) (w : World) : option Element * World :=
  match resolveComponent (ModalState.componentId modal) w with
  | None =>
      (None,
       with_console
         (fun c => c ++ [warning (ModalState.componentId modal)]) w)
  | Some C =>
      (Some (jsx C (jsx_config modal) (ModalState.id modal)), w)
  end.

Fixpoint render_all (l : list ModalState.t) (w : World) : list (option Element) * World :=
  match l with
  | [] => ([], w)
  | modal :: rest =>
      let '(e, w1) := render_modal modal w in
      let '(es, w2) := render_all rest w1 in
      (e :: es, w2)
  end.

Definition ModalRenderer (w : World) : list (option Element) * World :=
  render_all (JsMap.values (snapshot w)) w.

(** The effect cleanup of [ModalProvider]:
    [useModalStore.setState({ modals: new Map() })]. *)
Definition ModalProvider_unmount (w : World) : World :=
  let '(m, w1) := new_Map JsMap.empty w in
  let '(partial, w2) := new_obj (mkStoreState m) w1 in
  setState partial w2.

(** Calling a function value found in props. *)
Definition call (f : JsValue) (w : World) : World :=
  match f with
  | VCloseModal i => closeModal i w
  | _ => w
  end.
End Program.

(** ** Runs of the program

    What application code can do with the public surface: create handles,
    call their methods, call the store's methods directly, replace the
    mapping through [useModalStore.setState] (as the test suite does),
    render, and unmount the provider. *)

(** [new Map(pairs)] contents: later pairs overwrite earlier ones. *)
Definition Map_of_pairs (pairs : list (string * ModalState.t)) : JsMap.t ModalState.t :=
  fold_left (fun m kv => JsMap.set (fst kv) (snd kv) m) pairs JsMap.empty.

(** [useModalStore.setState({ modals: new Map(pairs) })] *)
Definition setState_modals (pairs : list (string * ModalState.t)) (w : World) : World :=
  let '(m, w1) := new_Map (Map_of_pairs pairs) w in
  let '(partial, w2) := new_obj (mkStoreState m) w1 in
  setState partial w2.

Inductive Action : Type :=
| ACreateModal (c : ModalComponent)
| AOpen (h : CreatedModal) (p : option (gmap string JsValue))
| AClose (h : CreatedModal)
| AStoreOpen (i : string) (c : ModalComponent) (p : option (gmap string JsValue))
| AStoreClose (i : string)
| ASetModals (pairs : list (string * ModalState.t))
| ARender
| AUnmount.

Section Runs.
Variable nanoid_output : nat -> string.

Definition step (a : Action) (w : World) : World :=
  match a with
  | ACreateModal c => snd (createModal c w)
  | AOpen h p => snd (handle_open nanoid_output h p w)
  | AClose h => handle_close h w
  | AStoreOpen i c p => openModal nanoid_output i c p w
  | AStoreClose i => closeModal i w
  | ASetModals pairs => setState_modals pairs w
  | ARender => snd (ModalRenderer w)
  | AUnmount => ModalProvider_unmount w
  end.

Definition run (acts : list Action) (w : World) : World :=
  fold_left (fun w a => step a w) acts w.

(** Every id held in an [ids] array came out of [nanoid()]. *)
Definition ids_from_nanoid (w : World) : Prop :=
  ∀ a s k, arrays w !! a = Some s → k ∈ s →
    ∃ n, n < nanoid_calls w ∧ k = nanoid_output n.

(** How one action changes the [ids] arrays and the id counter. *)
Inductive arrays_change (w w' : World) : Prop :=
| change_none :
    arrays w' = arrays w → (nanoid_calls w <= nanoid_calls w')%nat →
    arrays_change w w'
| change_alloc :
    arrays w' = arrays w ++ [[]] → nanoid_calls w' = nanoid_calls w →
    arrays_change w w'
| change_push (r : loc) (s : list string) :
    arrays w' = <[r := s ++ [nanoid_output (nanoid_calls w)]]> (arrays w) →
    s = default [] (arrays w !! r) →
    (nanoid_calls w < nanoid_calls w')%nat →
    arrays_change w w'
| change_pop (r : loc) (s : list string) (x : string) :
    arrays w' = <[r := s]> (arrays w) → arrays w !! r = Some (s ++ [x]) →
    (nanoid_calls w <= nanoid_calls w')%nat →
    arrays_change w w'.
End Runs.

(** ** Well-formedness *)

(** The current state object is allocated. *)
Definition valid (w : World) : Prop := state w < length (objs w).

(** [h] was returned by [createModal]: its array is allocated. *)
Definition created (h : CreatedModal) (w : World) : Prop :=
  ids h < length (arrays w).

(** No id sits in the arrays of two different handles. *)
Definition stacks_disjoint (w : World) : Prop :=
  ∀ a b sa sb k, a ≠ b → arrays w !! a = Some sa → arrays w !! b = Some sb →
    k ∈ sa → k ∉ sb.

(** The two registry maps agree, and registered ids are truthy. *)
Definition registry_consistent (w : World) : Prop :=
  (∀ c i, componentRegistry w !! c = Some i →
          i ≠ EmptyString ∧ componentIdMap w !! i = Some c)
  ∧ (∀ i c, componentIdMap w !! i = Some c → componentRegistry w !! c = Some i).

(** The world after a state swap that installs a new [Map] holding
    [entries]: one [Map] and two objects (the partial state and the
    merged state) are allocated, and the listeners are called once. *)
Definition swapped (entries : JsMap.t ModalState.t) (w : World) : World :=
  mkWorld (maps w ++ [entries])
          (objs w ++ [mkStoreState (length (maps w)); mkStoreState (length (maps w))])
          (S (length (objs w)))
          (notified w ++ [(S (length (objs w)), state w)])
          (componentRegistry w) (componentIdMap w) (arrays w)
          (nanoid_calls w) (console w).

(** What the renderer returns for one instance. *)
Definition rendered (modal : ModalState.t) (w : World) : option Element :=
  (λ C, jsx C (jsx_config modal) (ModalState.id modal))
    <$> resolveComponent (ModalState.componentId modal) w.

Definition unresolved (w : World) (modal : ModalState.t) : bool :=
  match resolveComponent (ModalState.componentId modal) w with
  | Some _ => false
  | None => true
  end.

(** ** Concrete data used to exercise the statements *)

(** A generator of pairwise different, non-empty ids. *)
Fixpoint demo_nanoid (n : nat) : string :=
  match n with
  | 0 => "k"
  | S n => String.append "x" (demo_nanoid n)
  end.

Definition TitleModal : ModalComponent := 7.
Definition SimpleModal : ModalComponent := 8.

Definition demo_h1 : CreatedModal := fst (createModal TitleModal init_world).
Definition demo_w1 : World := snd (createModal TitleModal init_world).
Definition demo_h2 : CreatedModal := fst (createModal SimpleModal demo_w1).
Definition demo_w2 : World := snd (createModal SimpleModal demo_w1).

Definition title (s : string) : option (gmap string JsValue) :=
  Some {["title" := VString s]}.

(** [h1.open({title: "A"})] in a world with two handles. *)
Definition demo_w3 : World := snd (handle_open demo_nanoid demo_h1 (title "A") demo_w2).

(** The two entries of [demo_w4]. *)
Definition demo_invalid_modal : ModalState.t :=
  ModalState.mk "invalid-modal" "non-existent-component" (Some ∅).

Definition demo_ok_modal : ModalState.t := ModalState.mk "ok-modal" "k" None.

(** Props that carry a [key] of their own. *)
Definition keyed_props (key : string) (s : string) : option (gmap string JsValue) :=
  Some (<["key" := VString key]> {["title" := VString s]}).

(** [h1.open({key: "custom-key", title: "A"})] in a world with two handles. *)
Definition demo_w5 : World :=
  snd (handle_open demo_nanoid demo_h1 (keyed_props "custom-key" "A") demo_w2).

(** The entry that [demo_w5] holds. *)
Definition demo_keyed_modal : ModalState.t :=
  ModalState.mk "k" "xk" (keyed_props "custom-key" "A").

(** The entry that [demo_w3] holds. *)
Definition demo_modal : ModalState.t := ModalState.mk "k" "xk" (title "A").

(** Creating the two handles, as a run. *)
Definition demo_acts : list Action :=
  [ACreateModal TitleModal; ACreateModal SimpleModal].

(** The store of the test "should warn when component is not found",
    next to one instance that resolves. *)
Definition demo_w4 : World :=
  openModal demo_nanoid "ok-modal" SimpleModal None
    (setState_modals
       [("invalid-modal",
         ModalState.mk "invalid-modal" "non-existent-component" (Some ∅))]
       init_world).

(** Two handles created, one instance opened through each, one render. *)
Definition demo_run : list Action :=
  demo_acts ++ [AOpen demo_h1 (title "A"); AOpen demo_h2 None; ARender].

(** Two handles created, then the same [key] prop given to two opens. *)
Definition demo_same_key_run : list Action :=
  demo_acts ++ [AOpen demo_h1 (keyed_props "same-key" "A");
                AOpen demo_h1 (keyed_props "same-key" "B")].

(** A second instance, opened through the other handle. *)
Definition demo_open_second : list Action := [AOpen demo_h2 None].

(** What may follow the first open: teardown, then [openModal] called
    directly with another component. *)
Definition demo_later : list Action :=
  [AUnmount; AStoreOpen "direct" SimpleModal None; AClose demo_h1].

(** ** Shapes of a step, and further invariants *)

(** An action that installs a mapping by hand, past [openModal]. *)
Definition is_manual (a : Action) : bool :=
  match a with
  | ASetModals _ => true
  | _ => false
  end.

(** A run that goes through the handles, the store's two methods, the
    renderer and the provider only. *)
Definition api_only (acts : list Action) : Prop :=
  Forall (λ a, is_manual a = false) acts.

(** Every entry is stored under its own [id]. *)
Definition keyed_by_id (w : World) : Prop :=
  ∀ k m, (k, m) ∈ snapshot w → ModalState.id m = k.

(** Every stored instance names a component id that resolves. *)
Definition all_resolve (w : World) : Prop :=
  ∀ k m, (k, m) ∈ snapshot w →
    is_Some (resolveComponent (ModalState.componentId m) w).

(** Every id in [componentRegistry] is a key of [componentIdMap]. *)
Definition registry_backed (w : World) : Prop :=
  ∀ c i, componentRegistry w !! c = Some i → is_Some (componentIdMap w !! i).

(** An action that puts an id of the caller's choice into the store. *)
Definition chooses_id (a : Action) : bool :=
  match a with
  | AStoreOpen _ _ _ => true
  | ASetModals _ => true
  | _ => false
  end.

(** A run in which instances are opened through handles only. *)
Definition opens_by_handle (acts : list Action) : Prop :=
  Forall (λ a, chooses_id a = false) acts.

(** [w1] is [w] up to the [ids] arrays and calls of [nanoid()]. *)
Definition same_store (w w1 : World) : Prop :=
  maps w1 = maps w ∧ objs w1 = objs w ∧ state w1 = state w
  ∧ notified w1 = notified w
  ∧ componentRegistry w1 = componentRegistry w
  ∧ componentIdMap w1 = componentIdMap w
  ∧ console w1 = console w
  ∧ (nanoid_calls w <= nanoid_calls w1)%nat.

(** Whether an action ends in a call of zustand's [setState]. *)
Definition notifies (a : Action) (w : World) : bool :=
  match a with
  | ACreateModal _ => false
  | ARender => false
  | AClose h =>
      match last (stack h w) with
      | Some i => truthy i
      | None => false
      end
  | _ => true
  end.

(** The React key of the element rendered for a store entry: the
    entry's own [key] prop when it has one, its store key otherwise. *)
Definition entry_key (kv : string * ModalState.t) : ReactKey :=
  match default ∅ (ModalState.props (snd kv)) !! "key" with
  | Some v => to_key v
  | None => KeyString (fst kv)
  end.

(** The messages one render pass hands to [console.warn]. *)
Definition warnings (w : World) : list string :=
  map (λ modal, warning (ModalState.componentId modal))
      (List.filter (unresolved w) (JsMap.values (snapshot w))).

Section RunShapes.
Variable nanoid_output : nat -> string.

(** Every key of [componentIdMap] came out of [nanoid()]. *)
Definition registry_from_nanoid (w : World) : Prop :=
  ∀ i c, componentIdMap w !! i = Some c →
    ∃ n, n < nanoid_calls w ∧ i = nanoid_output n.

(** Every key of the store came out of [nanoid()]. *)
Definition keys_from_nanoid (w : World) : Prop :=
  ∀ k, k ∈ JsMap.keys (snapshot w) →
    ∃ n, n < nanoid_calls w ∧ k = nanoid_output n.

(** What a step comes down to, as far as the store, the registry and
    the console go. *)
Inductive step_shape (a : Action) (w w' : World) : Prop :=
| shape_frame :
    same_store w w' → step_shape a w w'
| shape_open (i : string) (c : ModalComponent)
    (p : option (gmap string JsValue)) (w1 : World) :
    same_store w w1 → w' = openModal nanoid_output i c p w1 →
    step_shape a w w'
| shape_close (i : string) (w1 : World) :
    same_store w w1 → w' = closeModal i w1 → step_shape a w w'
| shape_set (pairs : list (string * ModalState.t)) :
    w' = setState_modals pairs w → (is_manual a = false → pairs = []) →
    step_shape a w w'
| shape_render :
    w' = snd (ModalRenderer w) → step_shape a w w'.
End RunShapes.

(** ** Facts about [JsMap] *)

Module JsMapFacts.
Section Facts.
Context {V : Type}.
Implicit Types (m : JsMap.t V) (k : string) (v : V).

Lemma get_set_eq m k v : JsMap.get k (JsMap.set k v m) = Some v.
Proof.
  induction m as [|[k' v'] m IH]; simpl.
  - by rewrite String.eqb_refl.
  - destruct (String.eqb k' k) eqn:E; simpl; rewrite E; auto.
Qed.

Lemma get_set_ne m k k' v : k ≠ k' → JsMap.get k' (JsMap.set k v m) = JsMap.get k' m.
Proof.
  intros Hne. induction m as [|[k0 v0] m IH]; simpl.
  - destruct (String.eqb_spec k k'); congruence.
  - destruct (String.eqb_spec k0 k) as [->|]; simpl.
    + destruct (String.eqb_spec k k'); congruence.
    + by rewrite IH.
Qed.

Lemma get_delete_eq m k : JsMap.get k (JsMap.delete k m) = None.
Proof.
  induction m as [|[k' v'] m IH]; simpl; [done|].
  destruct (String.eqb k' k) eqn:E; simpl; [done|]. by rewrite E.
Qed.

Lemma get_delete_ne m k k' : k ≠ k' → JsMap.get k' (JsMap.delete k m) = JsMap.get k' m.
Proof.
  intros Hne. induction m as [|[k0 v0] m IH]; simpl; [done|].
  destruct (String.eqb_spec k0 k) as [->|]; simpl.
  - rewrite IH. destruct (String.eqb_spec k k'); congruence.
  - by rewrite IH.
Qed.

Lemma get_None_keys m k : JsMap.get k m = None ↔ k ∉ JsMap.keys m.
Proof.
  induction m as [|[k' v'] m IH]; simpl.
  - split; [intros _; apply not_elem_of_nil | done].
  - rewrite not_elem_of_cons. destruct (String.eqb_spec k' k) as [->|Hne].
    + split; [done | intros [? _]; done].
    + rewrite IH. split; [intros ?; split; [congruence|done] | intros [_ ?]; done].
Qed.

Lemma set_absent m k v : JsMap.get k m = None → JsMap.set k v m = m ++ [(k, v)].
Proof.
  induction m as [|[k' v'] m IH]; simpl; [done|].
  destruct (String.eqb k' k); [done|]. intros H. by rewrite IH.
Qed.

Lemma delete_absent m k : JsMap.get k m = None → JsMap.delete k m = m.
Proof.
  induction m as [|[k' v'] m IH]; simpl; [done|].
  destruct (String.eqb k' k); [done|]. intros H. by rewrite IH.
Qed.

Lemma delete_snoc m k v : JsMap.delete k (m ++ [(k, v)]) = JsMap.delete k m.
Proof.
  induction m as [|[k' v'] m IH]; simpl.
  - by rewrite String.eqb_refl.
  - destruct (String.eqb k' k); by rewrite IH.
Qed.

Lemma delete_set_absent m k v :
  JsMap.get k m = None → JsMap.delete k (JsMap.set k v m) = m.
Proof.
  intros H. rewrite (set_absent _ _ _ H), delete_snoc. by apply delete_absent.
Qed.

Lemma size_set_absent m k v :
  JsMap.get k m = None → JsMap.size (JsMap.set k v m) = S (JsMap.size m).
Proof.
  intros H. rewrite (set_absent _ _ _ H). unfold JsMap.size.
  rewrite length_app. simpl. lia.
Qed.

End Facts.
End JsMapFacts.

(** ** Facts about the heaps and the store *)

Section StoreFacts.
Implicit Types (w : World) (i k : string) (e : JsMap.t ModalState.t).

Lemma lookup_snoc_length {A} (l : list A) (x : A) : (l ++ [x]) !! length l = Some x.
Proof. by rewrite list_lookup_middle. Qed.

Lemma insert_snoc_length {A} (l : list A) (x y : A) :
  <[length l := y]> (l ++ [x]) = l ++ [y].
Proof. rewrite insert_app_r_alt by lia. by rewrite Nat.sub_diag. Qed.

Lemma lookup_snoc2_length {A} (l : list A) (x y : A) :
  (l ++ [x; y]) !! S (length l) = Some y.
Proof.
  rewrite lookup_app_r by lia.
  by replace (S (length l) - length l) with 1 by lia.
Qed.

Lemma current_modals_swapped e w : current_modals (swapped e w) = length (maps w).
Proof.
  unfold current_modals, getState, obj_at, swapped. simpl.
  by rewrite lookup_snoc2_length.
Qed.

Lemma snapshot_swapped e w : snapshot (swapped e w) = e.
Proof.
  unfold snapshot. rewrite current_modals_swapped.
  unfold Map_entries, swapped. simpl. by rewrite lookup_snoc_length.
Qed.

Lemma valid_swapped e w : valid (swapped e w).
Proof. unfold valid, swapped. simpl. rewrite length_app. simpl. lia. Qed.

Lemma maps_swapped_old e w r m : maps w !! r = Some m → maps (swapped e w) !! r = Some m.
Proof. intros H. simpl. by apply lookup_app_l_Some. Qed.

Lemma closeModal_eq w i :
  valid w → closeModal i w = swapped (JsMap.delete i (snapshot w)) w.
Proof.
  intros Hv. unfold closeModal, set, new_Map, Map_delete, new_obj, setState. simpl.
  unfold valid in Hv.
  destruct (Nat.eqb_spec (length (objs w)) (state w)) as [E|_]; [lia|].
  unfold swapped, with_notified, with_state, with_objs, with_maps, obj_at, Map_entries; simpl.
  rewrite !lookup_snoc_length, insert_snoc_length. simpl.
  rewrite <- (assoc_L (++)). simpl.
  rewrite length_app. simpl. rewrite Nat.add_1_r. reflexivity.
Qed.

Lemma setState_modals_eq pairs w :
  valid w → setState_modals pairs w = swapped (Map_of_pairs pairs) w.
Proof.
  intros Hv. unfold setState_modals, new_Map, new_obj, setState. simpl.
  unfold valid in Hv.
  destruct (Nat.eqb_spec (length (objs w)) (state w)) as [E|_]; [lia|].
  unfold swapped, with_notified, with_state, with_objs, with_maps, obj_at; simpl.
  rewrite !lookup_snoc_length. simpl.
  rewrite <- (assoc_L (++)). simpl.
  rewrite length_app. simpl. rewrite Nat.add_1_r. reflexivity.
Qed.

Lemma ModalProvider_unmount_eq w :
  valid w → ModalProvider_unmount w = swapped JsMap.empty w.
Proof. intros Hv. exact (setState_modals_eq [] w Hv). Qed.

Lemma valid_init : valid init_world.
Proof. unfold valid. simpl. lia. Qed.
End StoreFacts.

Section ProgramFacts.
Variable nanoid_output : nat -> string.
Implicit Types (w : World) (i k : string) (c : ModalComponent) (h : CreatedModal).

Local Abbreviation registerComponent := (registerComponent nanoid_output).
Local Abbreviation openModal := (openModal nanoid_output).
Local Abbreviation handle_open := (handle_open nanoid_output).

Lemma truthy_ne s : truthy s = true ↔ s ≠ EmptyString.
Proof.
  unfold truthy. destruct (String.eqb_spec s EmptyString); simpl; split; congruence.
Qed.

(** Registration touches the two registry maps and the id counter only. *)
Lemma registerComponent_frame c w :
  let w' := snd (registerComponent c w) in
  maps w' = maps w ∧ objs w' = objs w ∧ state w' = state w
  ∧ notified w' = notified w ∧ arrays w' = arrays w ∧ console w' = console w
  ∧ (nanoid_calls w <= nanoid_calls w')%nat.
Proof.
  unfold registerComponent. destruct (truthy_opt _); simpl; repeat split; lia.
Qed.

Lemma snapshot_registerComponent c w :
  snapshot (snd (registerComponent c w)) = snapshot w.
Proof.
  destruct (registerComponent_frame c w) as (Hm & Ho & Hs & _).
  unfold snapshot, current_modals, getState, obj_at, Map_entries.
  by rewrite Hm, Ho, Hs.
Qed.

Lemma valid_registerComponent c w :
  valid w → valid (snd (registerComponent c w)).
Proof.
  destruct (registerComponent_frame c w) as (_ & Ho & Hs & _).
  unfold valid. by rewrite Ho, Hs.
Qed.

Lemma openModal_eq i c p w :
  valid w →
  openModal i c p w =
    swapped (JsMap.set i (ModalState.mk i (fst (registerComponent c w)) p) (snapshot w))
            (snd (registerComponent c w)).
Proof.
  intros Hv. rewrite <- (snapshot_registerComponent c w).
  apply (valid_registerComponent c) in Hv.
  unfold openModal. destruct (registerComponent c w) as [cid w0]. simpl in *.
  unfold set, new_Map, Map_set, new_obj, setState. simpl.
  unfold valid in Hv.
  destruct (Nat.eqb_spec (length (objs w0)) (state w0)) as [E|_]; [lia|].
  unfold swapped, with_notified, with_state, with_objs, with_maps, obj_at, Map_entries; simpl.
  rewrite !lookup_snoc_length, insert_snoc_length. simpl.
  rewrite <- (assoc_L (++)). simpl.
  rewrite length_app. simpl. rewrite Nat.add_1_r. reflexivity.
Qed.

Lemma snapshot_closeModal i w :
  valid w → snapshot (closeModal i w) = JsMap.delete i (snapshot w).
Proof. intros Hv. by rewrite closeModal_eq, snapshot_swapped. Qed.

Lemma snapshot_openModal i c p w :
  valid w →
  snapshot (openModal i c p w) =
    JsMap.set i (ModalState.mk i (fst (registerComponent c w)) p) (snapshot w).
Proof. intros Hv. by rewrite openModal_eq, snapshot_swapped. Qed.

Lemma valid_closeModal i w : valid w → valid (closeModal i w).
Proof. intros Hv. rewrite closeModal_eq by done. apply valid_swapped. Qed.

Lemma valid_openModal i c p w : valid w → valid (openModal i c p w).
Proof. intros Hv. rewrite openModal_eq by done. apply valid_swapped. Qed.

Lemma arrays_closeModal i w : valid w → arrays (closeModal i w) = arrays w.
Proof. intros Hv. by rewrite closeModal_eq. Qed.

Lemma arrays_openModal i c p w : valid w → arrays (openModal i c p w) = arrays w.
Proof.
  intros Hv. rewrite openModal_eq by done. simpl.
  by destruct (registerComponent_frame c w) as (_ & _ & _ & _ & Ha & _).
Qed.

Lemma Array_pop_snoc s x : Array_pop (s ++ [x]) = (Some x, s).
Proof. unfold Array_pop. by rewrite last_snoc, removelast_last. Qed.

Lemma stack_cases (s : list string) : s = [] ∨ ∃ s' x, s = s' ++ [x].
Proof.
  destruct s as [|y s] using rev_ind; [by left | right; eauto].
Qed.

(** What [open] does, in one equation. *)
Lemma handle_open_eq h p w :
  handle_open h p w =
    (nanoid_output (nanoid_calls w),
     openModal (nanoid_output (nanoid_calls w)) (component h) p
       (with_arrays (fun a => <[ids h := stack h w ++ [nanoid_output (nanoid_calls w)]]> a)
          (with_nanoid_calls (S (nanoid_calls w)) w))).
Proof. reflexivity. Qed.

(** What [close] does: nothing on an empty array, otherwise the last
    id leaves the array and, when truthy, is closed in the store. *)
Lemma handle_close_empty h w : stack h w = [] → handle_close h w = w.
Proof. intros H. unfold handle_close. by rewrite H. Qed.

Lemma handle_close_snoc h s i w :
  stack h w = s ++ [i] →
  handle_close h w =
    let w1 := with_arrays (fun a => <[ids h := s]> a) w in
    if truthy i then closeModal i w1 else w1.
Proof. intros H. unfold handle_close. by rewrite H, Array_pop_snoc. Qed.
End ProgramFacts.

(** ** Handles *)

Section HandleFacts.
Variable nanoid_output : nat -> string.
Implicit Types (w : World) (i k : string) (c : ModalComponent) (h : CreatedModal).

Local Abbreviation registerComponent := (registerComponent nanoid_output).
Local Abbreviation openModal := (openModal nanoid_output).
Local Abbreviation handle_open := (handle_open nanoid_output).

Lemma stack_insert_arrays h s w w' :
  created h w → arrays w' = <[ids h := s]> (arrays w) → stack h w' = s.
Proof.
  intros Hc Ha. unfold stack. rewrite Ha. by rewrite list_lookup_insert_eq.
Qed.

Lemma stack_insert_arrays_ne h h' s w w' :
  ids h ≠ ids h' → arrays w' = <[ids h := s]> (arrays w) → stack h' w' = stack h' w.
Proof.
  intros Hne Ha. unfold stack. rewrite Ha. by rewrite list_lookup_insert_ne.
Qed.

Lemma created_insert_arrays h h' s w w' :
  arrays w' = <[ids h := s]> (arrays w) → created h' w → created h' w'.
Proof. unfold created. intros ->. by rewrite length_insert. Qed.

Lemma registerComponent_with_arrays c f w :
  fst (registerComponent c (with_arrays f w)) = fst (registerComponent c w).
Proof. unfold registerComponent. simpl. by destruct (truthy_opt _). Qed.

Lemma handle_open_spec h p w :
  valid w →
  let i := nanoid_output (nanoid_calls w) in
  let r := handle_open h p w in
  fst r = i
  ∧ valid (snd r)
  ∧ arrays (snd r) = <[ids h := stack h w ++ [i]]> (arrays w)
  ∧ snapshot (snd r) =
      JsMap.set i
        (ModalState.mk i
           (fst (registerComponent (component h) (with_nanoid_calls (S (nanoid_calls w)) w)))
           p)
        (snapshot w).
Proof.
  intros Hv i r. subst r. rewrite handle_open_eq. fold i. simpl.
  set (w1 := with_arrays _ _).
  assert (Hv1 : valid w1) by exact Hv.
  split; [done|]. split; [by apply valid_openModal|].
  split; [by rewrite arrays_openModal|].
  rewrite snapshot_openModal by done.
  subst w1. by rewrite registerComponent_with_arrays.
Qed.

Lemma handle_close_spec h s i w :
  valid w → stack h w = s ++ [i] → i ≠ EmptyString →
  valid (handle_close h w)
  ∧ arrays (handle_close h w) = <[ids h := s]> (arrays w)
  ∧ snapshot (handle_close h w) = JsMap.delete i (snapshot w).
Proof.
  intros Hv Hs Hi. rewrite (handle_close_snoc h s i w Hs). simpl.
  apply truthy_ne in Hi. rewrite Hi.
  set (w1 := with_arrays _ _).
  assert (Hv1 : valid w1) by exact Hv.
  split; [by apply valid_closeModal|].
  split; [by rewrite arrays_closeModal|].
  by rewrite snapshot_closeModal.
Qed.
End HandleFacts.

(** ** Properties *)

Section Properties.
Variable nanoid_output : nat -> string.
Implicit Types (w : World) (i k : string) (c : ModalComponent) (h : CreatedModal).

Local Abbreviation registerComponent := (registerComponent nanoid_output).
Local Abbreviation openModal := (openModal nanoid_output).
Local Abbreviation handle_open := (handle_open nanoid_output).

(** C1. Open/close inverse.  In a well-formed world, for a handle [h]
    returned by [createModal], when the id that [nanoid()] hands out is
    non-empty and not yet a key of the store: [h.open(p)] appends
    exactly one entry, keyed by the returned id and carrying [p], so the
    size grows by one; the [h.close()] that follows removes that id and
    puts the mapping back as it was, entry for entry, and [h]'s array is
    back to what it was as well. *)
Theorem open_close_inverse h (p : option (gmap string JsValue)) w :
  valid w → created h w →
  nanoid_output (nanoid_calls w) ≠ EmptyString →
  JsMap.get (nanoid_output (nanoid_calls w)) (snapshot w) = None →
  let i := fst (handle_open h p w) in
  let w1 := snd (handle_open h p w) in
  let w2 := handle_close h w1 in
  i = nanoid_output (nanoid_calls w)
  ∧ (∃ componentId,
       snapshot w1 = snapshot w ++ [(i, ModalState.mk i componentId p)])
  ∧ JsMap.size (snapshot w1) = S (JsMap.size (snapshot w))
  ∧ (∀ k, k ≠ i → JsMap.get k (snapshot w1) = JsMap.get k (snapshot w))
  ∧ stack h w1 = stack h w ++ [i]
  ∧ snapshot w2 = snapshot w
  ∧ JsMap.size (snapshot w2) = JsMap.size (snapshot w)
  ∧ JsMap.get i (snapshot w2) = None
  ∧ stack h w2 = stack h w.
Proof.
  intros Hv Hc Hne Hfresh i w1 w2.
  destruct (handle_open_spec nanoid_output h p w Hv) as (Hi & Hv1 & Ha1 & Hs1).
  fold i in Hi. fold w1 in Hv1, Ha1, Hs1. rewrite <- Hi in Ha1, Hs1, Hne, Hfresh.
  assert (Hst1 : stack h w1 = stack h w ++ [i])
    by exact (stack_insert_arrays h _ w w1 Hc Ha1).
  destruct (handle_close_spec h _ i w1 Hv1 Hst1 Hne) as (Hv2 & Ha2 & Hs2).
  fold w2 in Hv2, Ha2, Hs2.
  assert (Hs2' : snapshot w2 = snapshot w)
    by (rewrite Hs2, Hs1; by apply JsMapFacts.delete_set_absent).
  split; [done|].
  split; [eexists; rewrite Hs1; by apply JsMapFacts.set_absent|].
  split; [rewrite Hs1; by apply JsMapFacts.size_set_absent|].
  split; [intros k Hk; rewrite Hs1; by apply JsMapFacts.get_set_ne|].
  split; [done|].
  split; [done|].
  split; [by rewrite Hs2'|].
  split; [by rewrite Hs2'|].
  eapply (stack_insert_arrays h _ w1 w2); [|exact Ha2].
  by eapply created_insert_arrays.
Qed.

(** C4, as amended.  Closing with nothing to close raises nothing and
    removes nothing.  [h.close()] on a handle whose array is empty
    returns the world it was given, untouched.  [closeModal(i)] for an
    [i] that is not a key of the store leaves the mapping's contents,
    the registry, the handles' arrays and the console as they were; it
    still goes through [set]: the mapping installed is an object that did
    not exist before, the state object is replaced and the listeners are
    called once. *)
Theorem close_nothing_keeps_contents w :
  (∀ h, stack h w = [] → handle_close h w = w)
  ∧ (∀ i, valid w → JsMap.get i (snapshot w) = None →
       snapshot (closeModal i w) = snapshot w
       ∧ componentRegistry (closeModal i w) = componentRegistry w
       ∧ componentIdMap (closeModal i w) = componentIdMap w
       ∧ arrays (closeModal i w) = arrays w
       ∧ console (closeModal i w) = console w
       ∧ maps w !! current_modals (closeModal i w) = None
       ∧ state (closeModal i w) ≠ state w
       ∧ notified (closeModal i w)
         = notified w ++ [(state (closeModal i w), state w)]).
Proof.
  split.
  - intros h. apply handle_close_empty.
  - intros i Hv Habs. rewrite closeModal_eq by done.
    rewrite snapshot_swapped, current_modals_swapped.
    split; [by apply JsMapFacts.delete_absent|].
    split; [done|]. split; [done|]. split; [done|]. split; [done|].
    split; [by apply lookup_ge_None_2|].
    unfold valid in Hv. simpl. split; [lia|done].
Qed.

(** C5. Snapshot immutability.  [openModal] and [closeModal] leave every
    [Map] object that existed before the call exactly as it was; the
    store's mapping afterwards is an object that did not exist before,
    and it holds the mutated contents. *)
Theorem snapshot_immutability i c (p : option (gmap string JsValue)) w
    (r : loc) (m : JsMap.t ModalState.t) :
  valid w → maps w !! r = Some m →
  (maps (openModal i c p w) !! r = Some m
   ∧ maps w !! current_modals (openModal i c p w) = None
   ∧ snapshot (openModal i c p w) =
       JsMap.set i (ModalState.mk i (fst (registerComponent c w)) p) (snapshot w))
  ∧ (maps (closeModal i w) !! r = Some m
     ∧ maps w !! current_modals (closeModal i w) = None
     ∧ snapshot (closeModal i w) = JsMap.delete i (snapshot w)).
Proof.
  intros Hv Hr.
  destruct (registerComponent_frame nanoid_output c w) as (Hm & _).
  split.
  - rewrite openModal_eq by done.
    rewrite current_modals_swapped, snapshot_swapped, Hm.
    split; [apply maps_swapped_old; by rewrite Hm|].
    split; [by apply lookup_ge_None_2|done].
  - rewrite closeModal_eq by done.
    rewrite current_modals_swapped, snapshot_swapped.
    split; [by apply maps_swapped_old|].
    split; [by apply lookup_ge_None_2|done].
Qed.


(** C10. Every [closeModal(i)] swaps the state, present id or not.  The
    mapping installed is an object that did not exist before; it holds
    the old contents without [i], hence the same contents when [i] was
    not a key; the objects that existed are all unchanged; the state
    object is replaced and the listeners are called once, with the new
    and the previous state. *)
Theorem closeModal_always_swaps i w :
  valid w →
  let w' := closeModal i w in
  maps w !! current_modals w' = None
  ∧ maps w' = maps w ++ [JsMap.delete i (snapshot w)]
  ∧ maps w' !! current_modals w' = Some (JsMap.delete i (snapshot w))
  ∧ (JsMap.get i (snapshot w) = None → snapshot w' = snapshot w)
  ∧ (∀ r m, maps w !! r = Some m → maps w' !! r = Some m)
  ∧ state w' ≠ state w
  ∧ objs w !! state w' = None
  ∧ notified w' = notified w ++ [(state w', state w)].
Proof.
  intros Hv w'. subst w'. rewrite closeModal_eq by done.
  rewrite current_modals_swapped, snapshot_swapped.
  split; [by apply lookup_ge_None_2|].
  split; [done|].
  split; [simpl; apply lookup_snoc_length|].
  split; [apply JsMapFacts.delete_absent|].
  split; [intros r m; apply maps_swapped_old|].
  unfold valid in Hv. simpl.
  split; [lia|]. split; [apply lookup_ge_None_2; lia|done].
Qed.
End Properties.

Section RegistryProperties.
Variable nanoid_output : nat -> string.
Implicit Types (w : World) (i k : string) (c : ModalComponent).

Local Abbreviation registerComponent := (registerComponent nanoid_output).

Lemma registerComponent_cached c i w :
  componentRegistry w !! c = Some i → i ≠ EmptyString → registerComponent c w = (i, w).
Proof.
  intros Hc Hi. unfold registerComponent. rewrite Hc. simpl.
  apply truthy_ne in Hi. by rewrite Hi.
Qed.

Lemma registerComponent_new c w :
  componentRegistry w !! c = None →
  registerComponent c w =
    (nanoid_output (nanoid_calls w),
     with_registry (<[c := nanoid_output (nanoid_calls w)]> (componentRegistry w))
                   (<[nanoid_output (nanoid_calls w) := c]> (componentIdMap w))
                   (with_nanoid_calls (S (nanoid_calls w)) w)).
Proof. intros Hc. unfold registerComponent. by rewrite Hc. Qed.

Lemma registry_consistent_new c j w :
  registry_consistent w → componentRegistry w !! c = None →
  j ≠ EmptyString → componentIdMap w !! j = None →
  registry_consistent
    (with_registry (<[c := j]> (componentRegistry w)) (<[j := c]> (componentIdMap w))
                   (with_nanoid_calls (S (nanoid_calls w)) w)).
Proof.
  intros [Hfw Hbw] Hc Hj Hfresh. split; simpl.
  - intros c' i'. rewrite lookup_insert. case_decide as Hcc.
    + intros [= <-]. subst c'. split; [done|]. by rewrite lookup_insert_eq.
    + intros Hl. destruct (Hfw _ _ Hl) as [Hi' Hr]. split; [done|].
      rewrite lookup_insert_ne; [done|]. intros ->. congruence.
  - intros i' c'. rewrite lookup_insert. case_decide as Hji.
    + intros [= <-]. subst i'. by rewrite lookup_insert_eq.
    + intros Hl. rewrite lookup_insert_ne; [by apply Hbw|].
      intros ->. apply Hbw in Hl. congruence.
Qed.

(** C3. Registration idempotence.  In a world whose two registry maps
    agree, and where the id that [nanoid()] would hand out for a
    component not yet registered is non-empty and unused: registering
    [c] twice returns the same id, the second call changes nothing, the
    id resolves to [c], the two maps still agree, and no component
    registered before loses or changes its id.  [registerComponent] is
    a total function: there is no error case. *)
Theorem registration_idempotent c w :
  registry_consistent w →
  (componentRegistry w !! c = None →
     nanoid_output (nanoid_calls w) ≠ EmptyString
     ∧ componentIdMap w !! nanoid_output (nanoid_calls w) = None) →
  let i1 := fst (registerComponent c w) in
  let w1 := snd (registerComponent c w) in
  let i2 := fst (registerComponent c w1) in
  let w2 := snd (registerComponent c w1) in
  i2 = i1
  ∧ w2 = w1
  ∧ resolveComponent i1 w1 = Some c
  ∧ componentRegistry w1 !! c = Some i1
  ∧ registry_consistent w1
  ∧ (∀ c' i', componentRegistry w !! c' = Some i' →
       componentRegistry w1 !! c' = Some i' ∧ resolveComponent i' w1 = Some c').
Proof.
  intros Hcons Hfresh i1 w1 i2 w2. subst i1 w1 i2 w2.
  destruct (componentRegistry w !! c) as [i|] eqn:Hc.
  - destruct (proj1 Hcons _ _ Hc) as [Hi Hr].
    rewrite !(registerComponent_cached c i w Hc Hi). simpl.
    rewrite (registerComponent_cached c i w Hc Hi). simpl.
    split; [done|]. split; [done|]. split; [done|]. split; [done|].
    split; [done|]. intros c' i' Hl. split; [done|]. by apply (proj1 Hcons).
  - destruct (Hfresh eq_refl) as [Hj Hnew].
    rewrite !(registerComponent_new c w Hc). simpl.
    set (j := nanoid_output (nanoid_calls w)) in *.
    set (w1 := with_registry _ _ _).
    assert (Hc1 : componentRegistry w1 !! c = Some j) by (simpl; apply lookup_insert_eq).
    rewrite (registerComponent_cached c j w1 Hc1 Hj). simpl.
    pose proof (registry_consistent_new c j w Hcons Hc Hj Hnew) as Hcons1.
    fold w1 in Hcons1.
    split; [done|]. split; [done|].
    split; [unfold resolveComponent; simpl; apply lookup_insert_eq|].
    split; [apply lookup_insert_eq|]. split; [done|].
    intros c' i' Hl.
    assert (Hl1 : componentRegistry w1 !! c' = Some i').
    { simpl. rewrite lookup_insert_ne; [done|]. intros ->. congruence. }
    split; [done|]. by apply (proj1 Hcons1).
Qed.
End RegistryProperties.

Section RenderProperties.
Implicit Types (w : World) (i k : string) (modal : ModalState.t).

Lemma jsx_config_lookup modal (name : string) :
  jsx_config modal !! name
  = match default ∅ (ModalState.props modal) !! name with
    | Some v => Some v
    | None => injected_props modal !! name
    end.
Proof.
  unfold jsx_config. rewrite lookup_union.
  destruct (default ∅ (ModalState.props modal) !! name) as [v|];
    by destruct (injected_props modal !! name).
Qed.

Lemma jsx_config_key modal :
  jsx_config modal !! "key" = default ∅ (ModalState.props modal) !! "key".
Proof.
  rewrite jsx_config_lookup.
  by destruct (default ∅ (ModalState.props modal) !! "key").
Qed.

Lemma jsx_spec (C : ModalComponent) modal :
  let e := jsx C (jsx_config modal) (ModalState.id modal) in
  el_type e = C
  ∧ el_props e !! "key" = None
  ∧ (∀ name, name ≠ "key" →
       el_props e !! name
       = match default ∅ (ModalState.props modal) !! name with
         | Some v => Some v
         | None => injected_props modal !! name
         end)
  ∧ el_key e
    = match default ∅ (ModalState.props modal) !! "key" with
      | Some v => to_key v
      | None => KeyString (ModalState.id modal)
      end.
Proof.
  simpl. split; [done|]. split; [apply lookup_delete_eq|]. split.
  - intros name Hne. rewrite lookup_delete_ne by done. apply jsx_config_lookup.
  - by rewrite jsx_config_key.
Qed.

Lemma render_all_spec (l : list ModalState.t) w :
  render_all l w =
    (map (λ modal, rendered modal w) l,
     with_console
       (λ c, c ++ map (λ modal, warning (ModalState.componentId modal))
                      (List.filter (unresolved w) l)) w).
Proof.
  revert w. induction l as [|modal l IH]; intros w.
  - simpl. unfold with_console. rewrite app_nil_r. by destruct w.
  - simpl. unfold render_modal, rendered at 1, unresolved at 1.
    destruct (resolveComponent (ModalState.componentId modal) w) as [C|] eqn:HC.
    + rewrite IH. reflexivity.
    + rewrite IH. simpl. unfold with_console. simpl.
      rewrite <- (assoc_L (++)). reflexivity.
Qed.

Lemma lookup_map {A B} (f : A → B) (l : list A) (n : nat) (x : A) :
  l !! n = Some x → map f l !! n = Some (f x).
Proof.
  revert n. induction l as [|y l IH]; intros [|n]; simpl; try done.
  - by intros [= ->].
  - apply IH.
Qed.

Lemma ModalRenderer_lookup w n k modal :
  snapshot w !! n = Some (k, modal) →
  fst (ModalRenderer w) !! n = Some (rendered modal w).
Proof.
  intros Hn. unfold ModalRenderer. rewrite render_all_spec. simpl.
  apply (lookup_map (λ modal, rendered modal w)). unfold JsMap.values.
  exact (lookup_map snd _ _ _ Hn).
Qed.

(** C7. Unknown component ids at render time.  One render pass returns,
    position by position in snapshot order, the element of every
    instance whose component id resolves (what [jsx] makes of the
    component, of the instance's props laid over [id] and [close], and
    of the instance's id) and [null] for every instance whose id does
    not; for each of the latter, in the same order, it passes to
    [console.warn] the message that names the component id.  The store
    is not touched: same mapping object, same contents, no state swap,
    no listener called. *)
Theorem render_skips_unresolved w :
  let out := fst (ModalRenderer w) in
  let w' := snd (ModalRenderer w) in
  out = map (λ modal, rendered modal w) (JsMap.values (snapshot w))
  ∧ console w' =
      console w ++ map (λ modal, warning (ModalState.componentId modal))
                       (List.filter (unresolved w) (JsMap.values (snapshot w)))
  ∧ (maps w' = maps w ∧ state w' = state w ∧ notified w' = notified w
     ∧ snapshot w' = snapshot w)
  ∧ (∀ n k modal, snapshot w !! n = Some (k, modal) →
       match resolveComponent (ModalState.componentId modal) w with
       | None =>
           out !! n = Some None
           ∧ String.append "Modal component with ID "
               (String.append (ModalState.componentId modal) " not found")
             ∈ console w'
           ∧ snapshot w' !! n = Some (k, modal)
       | Some C =>
           out !! n =
             Some (Some (jsx C (jsx_config modal) (ModalState.id modal)))
             ∧ el_type (jsx C (jsx_config modal) (ModalState.id modal)) = C
             ∧ el_props (jsx C (jsx_config modal) (ModalState.id modal)) !! "key" = None
             ∧ (∀ name, name ≠ "key" →
                  el_props (jsx C (jsx_config modal) (ModalState.id modal)) !! name
                  = match default ∅ (ModalState.props modal) !! name with
                    | Some v => Some v
                    | None => injected_props modal !! name
                    end)
             ∧ el_key (jsx C (jsx_config modal) (ModalState.id modal))
               = match default ∅ (ModalState.props modal) !! "key" with
                 | Some v => to_key v
                 | None => KeyString (ModalState.id modal)
                 end
       end).
Proof.
  intros out w'. subst out w'. unfold ModalRenderer.
  rewrite render_all_spec. simpl.
  split; [done|]. split; [done|]. split; [done|].
  intros n k modal Hn.
  assert (Hout : map (λ modal, rendered modal w) (JsMap.values (snapshot w)) !! n
                 = Some (rendered modal w)).
  { apply (lookup_map (λ modal, rendered modal w)). unfold JsMap.values.
    exact (lookup_map snd _ _ _ Hn). }
  rewrite Hout. unfold rendered.
  destruct (resolveComponent (ModalState.componentId modal) w) as [C|] eqn:HC.
  { split; [done|]. apply jsx_spec. }
  split; [done|]. split; [|exact Hn].
  apply elem_of_app. right. apply list_elem_of_In.
  apply (in_map (λ modal, warning (ModalState.componentId modal))).
  apply filter_In. split.
  - apply (in_map snd) with (x := (k, modal)).
    apply list_elem_of_In. by eapply list_elem_of_lookup_2.
  - unfold unresolved. by rewrite HC.
Qed.

(** C6. The injected close is addressed by id.  For an instance stored
    under key [i] with id [i] whose component resolves, the renderer
    returns what [jsx] makes of the component, of the instance's own
    props laid over [{ id: i, close: f }] and of [i], where [f] is the
    closure that calls [closeModal(i)]: an element keyed [i] unless the
    props carry a [key], which then is the element's key and no prop;
    the element's [close] is [f] unless the instance's own props define
    [close].  Whenever [f] is called later, whatever the store and the
    handles' arrays hold by then, the store afterwards is the store
    before without key [i], every other entry in place, and no handle's
    array is read or written. *)
Theorem injected_close_is_id_addressed w n i modal C :
  snapshot w !! n = Some (i, modal) →
  ModalState.id modal = i →
  resolveComponent (ModalState.componentId modal) w = Some C →
  ∃ e f,
    fst (ModalRenderer w) !! n = Some (Some e)
    ∧ f = VCloseModal i
    ∧ e = jsx C (default ∅ (ModalState.props modal)
                   ∪ <["close" := f]> (<["id" := VString i]> ∅)) i
    ∧ el_type e = C
    ∧ el_key e
      = match default ∅ (ModalState.props modal) !! "key" with
        | Some v => to_key v
        | None => KeyString i
        end
    ∧ el_props e !! "key" = None
    ∧ (default ∅ (ModalState.props modal) !! "close" = None →
         el_props e !! "close" = Some f)
    ∧ ∀ w', valid w' →
        snapshot (call f w') = JsMap.delete i (snapshot w')
        ∧ JsMap.get i (snapshot (call f w')) = None
        ∧ (∀ k, k ≠ i →
             JsMap.get k (snapshot (call f w')) = JsMap.get k (snapshot w'))
        ∧ arrays (call f w') = arrays w'.
Proof.
  intros Hn Hid HC.
  exists (jsx C (jsx_config modal) (ModalState.id modal)), (VCloseModal i).
  destruct (jsx_spec C modal) as (Hty & Hkey & Hprops & Hk).
  split.
  { rewrite (ModalRenderer_lookup w n i modal Hn). unfold rendered.
    by rewrite HC. }
  split; [done|].
  split; [unfold jsx_config, injected_props; by rewrite Hid|].
  split; [done|]. split; [by rewrite Hk, Hid|]. split; [done|].
  split.
  { intros Hnone. rewrite Hprops by done. rewrite Hnone.
    unfold injected_props. by rewrite Hid, lookup_insert_eq. }
  intros w' Hv. simpl.
  rewrite snapshot_closeModal by done.
  split; [done|]. split; [apply JsMapFacts.get_delete_eq|].
  split; [intros k Hk'; by apply JsMapFacts.get_delete_ne|].
  by apply arrays_closeModal.
Qed.
End RenderProperties.

Section RunProperties.
Variable nanoid_output : nat -> string.
Implicit Types (w : World) (i k : string) (c : ModalComponent) (h : CreatedModal)
               (a : Action) (acts : list Action).

Local Abbreviation openModal := (openModal nanoid_output).
Local Abbreviation handle_open := (handle_open nanoid_output).
Local Abbreviation ids_from_nanoid := (ids_from_nanoid nanoid_output).

Local Abbreviation arrays_change := (arrays_change nanoid_output).

Lemma nanoid_calls_openModal i c p w :
  valid w → (nanoid_calls w <= nanoid_calls (openModal i c p w))%nat.
Proof.
  intros Hv. rewrite openModal_eq by done. simpl.
  by destruct (registerComponent_frame nanoid_output c w) as (_&_&_&_&_&_&?).
Qed.

Lemma stack_snoc_lookup h s x w :
  stack h w = s ++ [x] → arrays w !! ids h = Some (s ++ [x]).
Proof.
  unfold stack. destruct (arrays w !! ids h) as [l|]; simpl; [by intros ->|].
  intros H. by destruct s.
Qed.

Lemma step_valid a w : valid w → valid (step nanoid_output a w).
Proof.
  intros Hv. destruct a as [c|h p|h|i c p|i|pairs| |]; unfold step.
  - exact Hv.
  - by destruct (handle_open_spec nanoid_output h p w Hv) as (_ & ? & _).
  - destruct (stack_cases (stack h w)) as [He|(s & x & Hs)].
    + by rewrite handle_close_empty.
    + rewrite (handle_close_snoc h s x w Hs). simpl.
      destruct (truthy x); [by apply valid_closeModal | exact Hv].
  - by apply valid_openModal.
  - by apply valid_closeModal.
  - rewrite setState_modals_eq by done. apply valid_swapped.
  - unfold ModalRenderer. rewrite render_all_spec. exact Hv.
  - rewrite ModalProvider_unmount_eq by done. apply valid_swapped.
Qed.

Lemma run_valid acts w : valid w → valid (run nanoid_output acts w).
Proof.
  revert w. induction acts as [|a acts IH]; intros w Hv; [done|]. simpl.
  apply IH. by apply step_valid.
Qed.

Lemma step_arrays_change a w : valid w → arrays_change w (step nanoid_output a w).
Proof.
  intros Hv. destruct a as [c|h p|h|i c p|i|pairs| |]; unfold step.
  - by apply change_alloc.
  - rewrite handle_open_eq. simpl.
    set (w1 := with_arrays _ _).
    assert (Hv1 : valid w1) by exact Hv.
    eapply change_push with (r := ids h).
    + rewrite arrays_openModal by done. reflexivity.
    + reflexivity.
    + pose proof (nanoid_calls_openModal (nanoid_output (nanoid_calls w))
                    (component h) p w1 Hv1) as Hle.
      simpl in Hle. lia.
  - destruct (stack_cases (stack h w)) as [He|(s & x & Hs)].
    + rewrite handle_close_empty by done. by apply change_none.
    + rewrite (handle_close_snoc h s x w Hs). simpl.
      apply change_pop with (r := ids h) (s := s) (x := x).
      * destruct (truthy x); [by rewrite arrays_closeModal | done].
      * by apply stack_snoc_lookup.
      * destruct (truthy x); [by rewrite closeModal_eq | done].
  - apply change_none; [by apply arrays_openModal | by apply nanoid_calls_openModal].
  - apply change_none; [by apply arrays_closeModal | by rewrite closeModal_eq].
  - rewrite setState_modals_eq by done. by apply change_none.
  - unfold ModalRenderer. rewrite render_all_spec. by apply change_none.
  - rewrite ModalProvider_unmount_eq by done. by apply change_none.
Qed.

Lemma change_ids_from_nanoid w w' :
  arrays_change w w' → ids_from_nanoid w → ids_from_nanoid w'.
Proof.
  intros Hch Hinv a s k Ha Hk.
  destruct Hch as [Harr Hn|Harr Hn|r s0 Harr Hs0 Hn|r s0 x Harr Hr Hn];
    rewrite Harr in Ha.
  - destruct (Hinv a s k Ha Hk) as (n & Hlt & ->). exists n. split; [lia|done].
  - apply lookup_app_Some in Ha as [Ha|[_ Ha]].
    + destruct (Hinv a s k Ha Hk) as (n & Hlt & ->). exists n. split; [lia|done].
    + apply list_lookup_singleton_Some in Ha as [_ <-]. by apply elem_of_nil in Hk.
  - apply list_lookup_insert_Some in Ha as [(<- & <- & Hlt)|[Hne Ha]].
    + apply elem_of_app in Hk as [Hk|Hk].
      * subst s0. destruct (arrays w !! r) as [l|] eqn:Hl; simpl in Hk.
        -- destruct (Hinv r l k Hl Hk) as (n & Hlt' & ->). exists n. split; [lia|done].
        -- by apply elem_of_nil in Hk.
      * apply list_elem_of_singleton in Hk as ->. exists (nanoid_calls w). split; [lia|done].
    + destruct (Hinv a s k Ha Hk) as (n & Hlt & ->). exists n. split; [lia|done].
  - apply list_lookup_insert_Some in Ha as [(<- & <- & Hlt)|[Hne Ha]].
    + assert (Hk' : k ∈ s0 ++ [x]) by (apply elem_of_app; by left).
      destruct (Hinv r _ k Hr Hk') as (n & Hlt' & ->). exists n. split; [lia|done].
    + destruct (Hinv a s k Ha Hk) as (n & Hlt & ->). exists n. split; [lia|done].
Qed.

Hypothesis nanoid_injective : ∀ m n, nanoid_output m = nanoid_output n → m = n.

Lemma fresh_id_not_in_arrays w r s :
  ids_from_nanoid w → arrays w !! r = Some s →
  nanoid_output (nanoid_calls w) ∉ s.
Proof.
  intros Hinv Hr Hin. destruct (Hinv r s _ Hr Hin) as (n & Hlt & Heq).
  apply nanoid_injective in Heq. lia.
Qed.

Lemma change_stacks_disjoint w w' :
  arrays_change w w' → ids_from_nanoid w → stacks_disjoint w → stacks_disjoint w'.
Proof.
  intros Hch Hinv Hdis a b sa sb k Hab Ha Hb Hka Hkb.
  destruct Hch as [Harr Hn|Harr Hn|r s0 Harr Hs0 Hn|r s0 x Harr Hr Hn];
    rewrite Harr in Ha, Hb.
  - exact (Hdis a b sa sb k Hab Ha Hb Hka Hkb).
  - apply lookup_app_Some in Ha as [Ha|[_ Ha]];
      [|apply list_lookup_singleton_Some in Ha as [_ <-]; by apply elem_of_nil in Hka].
    apply lookup_app_Some in Hb as [Hb|[_ Hb]];
      [|apply list_lookup_singleton_Some in Hb as [_ <-]; by apply elem_of_nil in Hkb].
    exact (Hdis a b sa sb k Hab Ha Hb Hka Hkb).
  - assert (Hold : ∀ k', k' ∈ s0 → ∃ l, arrays w !! r = Some l ∧ k' ∈ l).
    { intros k' Hk'. subst s0. destruct (arrays w !! r) as [l|]; simpl in Hk'.
      - by exists l.
      - by apply elem_of_nil in Hk'. }
    apply list_lookup_insert_Some in Ha as [(<- & <- & Hlt)|[Hne Ha]];
      apply list_lookup_insert_Some in Hb as [(<- & <- & Hlt')|[Hne' Hb]];
      try done.
    + apply elem_of_app in Hka as [Hka|Hka].
      * destruct (Hold k Hka) as (l & Hl & Hkl).
        exact (Hdis r b l sb k Hab Hl Hb Hkl Hkb).
      * apply list_elem_of_singleton in Hka as ->.
        exact (fresh_id_not_in_arrays w b sb Hinv Hb Hkb).
    + apply elem_of_app in Hkb as [Hkb|Hkb].
      * destruct (Hold k Hkb) as (l & Hl & Hkl).
        exact (Hdis a r sa l k Hab Ha Hl Hka Hkl).
      * apply list_elem_of_singleton in Hkb as ->.
        exact (fresh_id_not_in_arrays w a sa Hinv Ha Hka).
    + exact (Hdis a b sa sb k Hab Ha Hb Hka Hkb).
  - assert (Hsub : ∀ k', k' ∈ s0 → k' ∈ s0 ++ [x])
      by (intros k' ?; apply elem_of_app; by left).
    apply list_lookup_insert_Some in Ha as [(<- & <- & Hlt)|[Hne Ha]];
      apply list_lookup_insert_Some in Hb as [(<- & <- & Hlt')|[Hne' Hb]];
      try done.
    + exact (Hdis r b _ sb k Hab Hr Hb (Hsub k Hka) Hkb).
    + exact (Hdis a r sa _ k Hab Ha Hr Hka (Hsub k Hkb)).
    + exact (Hdis a b sa sb k Hab Ha Hb Hka Hkb).
Qed.

Lemma run_invariants acts w :
  valid w → ids_from_nanoid w → stacks_disjoint w →
  valid (run nanoid_output acts w) ∧ ids_from_nanoid (run nanoid_output acts w) ∧ stacks_disjoint (run nanoid_output acts w).
Proof.
  revert w. induction acts as [|a acts IH]; intros w Hv Hi Hd; [done|]. simpl.
  pose proof (step_arrays_change a w Hv) as Hch.
  apply IH.
  - by apply step_valid.
  - by eapply change_ids_from_nanoid.
  - by eapply change_stacks_disjoint.
Qed.

Lemma init_invariants : ids_from_nanoid init_world ∧ stacks_disjoint init_world.
Proof.
  split.
  - intros a s k Ha. simpl in Ha. by rewrite lookup_nil in Ha.
  - intros a b sa sb k _ Ha. simpl in Ha. by rewrite lookup_nil in Ha.
Qed.
End RunProperties.

Section IsolationProperties.
Variable nanoid_output : nat -> string.
Implicit Types (w : World) (i k : string) (c : ModalComponent) (h : CreatedModal)
               (a : Action) (acts : list Action).

Local Abbreviation handle_open := (handle_open nanoid_output).

Lemma nanoid_calls_handle_open h p w :
  valid w → (nanoid_calls w < nanoid_calls (snd (handle_open h p w)))%nat.
Proof.
  intros Hv. rewrite handle_open_eq. simpl.
  set (w1 := with_arrays _ _).
  assert (Hv1 : valid w1) by exact Hv.
  pose proof (nanoid_calls_openModal nanoid_output (nanoid_output (nanoid_calls w))
                (component h) p w1 Hv1) as Hle.
  simpl in Hle. lia.
Qed.

(** C8. Teardown clears all.  From any well-formed world, populated
    or not, and whatever is done after it (any number of handles
    created, opened and closed in any order, direct calls of the
    store's methods, mappings installed by hand, renders), the
    provider's effect cleanup leaves a store that holds no instance:
    no key has an entry, the size is zero and a render pass returns
    nothing.  The arrays of the handles play no part in it. *)
Theorem teardown_clears_all acts w :
  valid w →
  let w1 := run nanoid_output acts w in
  snapshot (ModalProvider_unmount w1) = JsMap.empty
  ∧ JsMap.size (snapshot (ModalProvider_unmount w1)) = 0
  ∧ (∀ k, JsMap.get k (snapshot (ModalProvider_unmount w1)) = None)
  ∧ fst (ModalRenderer (ModalProvider_unmount w1)) = [].
Proof.
  intros Hv0 w1.
  assert (Hv : valid w1) by by apply run_valid.
  assert (Hs : snapshot (ModalProvider_unmount w1) = JsMap.empty)
    by (rewrite ModalProvider_unmount_eq by done; apply snapshot_swapped).
  split; [done|]. split; [by rewrite Hs|]. split; [intros k; by rewrite Hs|].
  unfold ModalRenderer. by rewrite Hs.
Qed.

(** C2. Stack ownership isolation.  When [nanoid()] never repeats an id
    and never returns the empty string, in every world the program can
    reach and for two different handles [h1], [h2] (whatever their
    components): after [h1.open(); h2.open(); h1.close()] the store is
    the store as it was before the close without [h1]'s id, [h2]'s
    entry is there with its props, and [h2]'s array still ends with its
    id.  More generally, in every reachable world, [h1.close()] leaves
    the entry of every id held in [h2]'s array as it is. *)
Theorem stack_ownership_isolation acts h1 h2
    (p1 p2 : option (gmap string JsValue)) :
  (∀ m n, nanoid_output m = nanoid_output n → m = n) →
  (∀ n, nanoid_output n ≠ EmptyString) →
  let w := run nanoid_output acts init_world in
  created h1 w → created h2 w → ids h1 ≠ ids h2 →
  let i1 := fst (handle_open h1 p1 w) in
  let w1 := snd (handle_open h1 p1 w) in
  let i2 := fst (handle_open h2 p2 w1) in
  let w2 := snd (handle_open h2 p2 w1) in
  let w3 := handle_close h1 w2 in
  (i1 ≠ i2
   ∧ snapshot w3 = JsMap.delete i1 (snapshot w2)
   ∧ JsMap.get i1 (snapshot w3) = None
   ∧ (∃ componentId,
        JsMap.get i2 (snapshot w2) = Some (ModalState.mk i2 componentId p2)
        ∧ JsMap.get i2 (snapshot w3) = Some (ModalState.mk i2 componentId p2))
   ∧ (∀ k, k ≠ i1 → JsMap.get k (snapshot w3) = JsMap.get k (snapshot w2))
   ∧ stack h1 w3 = stack h1 w
   ∧ stack h2 w3 = stack h2 w ++ [i2])
  ∧ (∀ k, k ∈ stack h2 w →
       JsMap.get k (snapshot (handle_close h1 w)) = JsMap.get k (snapshot w)).
Proof.
  intros Hinj Hne w Hc1 Hc2 Hh i1 w1 i2 w2 w3.
  destruct init_invariants with (nanoid_output := nanoid_output) as [Hi0 Hd0].
  destruct (run_invariants nanoid_output Hinj acts init_world valid_init Hi0 Hd0)
    as (Hv & Hi & Hd).
  fold w in Hv, Hi, Hd.
  split.
  - destruct (handle_open_spec nanoid_output h1 p1 w Hv) as (Hi1 & Hv1 & Ha1 & Hs1).
    fold i1 in Hi1. fold w1 in Hv1, Ha1, Hs1. rewrite <- Hi1 in Ha1, Hs1.
    destruct (handle_open_spec nanoid_output h2 p2 w1 Hv1) as (Hi2 & Hv2 & Ha2 & Hs2).
    fold i2 in Hi2. fold w2 in Hv2, Ha2, Hs2. rewrite <- Hi2 in Ha2, Hs2.
    pose proof (nanoid_calls_handle_open h1 p1 w Hv) as Hlt. fold w1 in Hlt.
    assert (Hi12 : i1 ≠ i2).
    { rewrite Hi1, Hi2. intros Heq. apply Hinj in Heq. lia. }
    assert (Hi1ne : i1 ≠ EmptyString) by (rewrite Hi1; apply Hne).
    assert (Hst1 : stack h1 w1 = stack h1 w ++ [i1])
      by exact (stack_insert_arrays h1 _ w w1 Hc1 Ha1).
    assert (Hst2 : stack h1 w2 = stack h1 w ++ [i1]).
    { rewrite <- Hst1. eapply (stack_insert_arrays_ne h2 h1); [|exact Ha2]. congruence. }
    assert (Hst2' : stack h2 w2 = stack h2 w ++ [i2]).
    { rewrite (stack_insert_arrays h2 (stack h2 w1 ++ [i2]) w1 w2); [| |exact Ha2].
      - f_equal. eapply (stack_insert_arrays_ne h1 h2); [done|exact Ha1].
      - by eapply created_insert_arrays. }
    destruct (handle_close_spec h1 _ i1 w2 Hv2 Hst2 Hi1ne) as (Hv3 & Ha3 & Hs3).
    fold w3 in Hv3, Ha3, Hs3.
    split; [done|]. split; [done|].
    split; [rewrite Hs3; apply JsMapFacts.get_delete_eq|].
    split.
    { eexists. rewrite Hs3, JsMapFacts.get_delete_ne by done.
      rewrite Hs2. split; apply JsMapFacts.get_set_eq. }
    split; [intros k Hk; rewrite Hs3; by apply JsMapFacts.get_delete_ne|].
    split.
    + rewrite (stack_insert_arrays h1 (stack h1 w) w2 w3); [done| |exact Ha3].
      eapply created_insert_arrays; [exact Ha2|].
      by eapply created_insert_arrays.
    + rewrite <- Hst2'. eapply (stack_insert_arrays_ne h1 h2); [done|exact Ha3].
  - intros k Hk.
    destruct (stack_cases (stack h1 w)) as [He|(s & x & Hs)].
    + by rewrite handle_close_empty.
    + pose proof (stack_snoc_lookup h1 s x w Hs) as Hl1.
      assert (Hl2 : ∃ l, arrays w !! ids h2 = Some l ∧ k ∈ l).
      { unfold stack in Hk. destruct (arrays w !! ids h2) as [l|]; simpl in Hk.
        - by exists l.
        - by apply elem_of_nil in Hk. }
      destruct Hl2 as (l & Hl2 & Hkl).
      assert (Hxk : x ≠ k).
      { intros ->. apply (Hd (ids h1) (ids h2) _ l k Hh Hl1 Hl2); [|done].
        apply elem_of_app. right. by apply list_elem_of_singleton. }
      rewrite (handle_close_snoc h1 s x w Hs). simpl.
      destruct (truthy x); [|done].
      rewrite snapshot_closeModal by exact Hv.
      by apply JsMapFacts.get_delete_ne.
Qed.
End IsolationProperties.

(** ** The statements at concrete inputs *)

Lemma demo_nanoid_nonempty n : demo_nanoid n ≠ EmptyString.
Proof. by destruct n. Qed.

Lemma demo_nanoid_injective m n : demo_nanoid m = demo_nanoid n → m = n.
Proof.
  revert n. induction m as [|m IH]; intros [|n]; simpl; try done.
  intros [= H]. f_equal. by apply IH.
Qed.

Lemma valid_demo_w3 : valid demo_w3.
Proof. unfold valid. vm_compute. lia. Qed.

Lemma created_demo_h1 : created demo_h1 demo_w3.
Proof. unfold created. vm_compute. lia. Qed.

(** The scenario [h.open({title: "A"}); h.open({title: "B"}); h.close()]:
    the second open and the close, from the world after the first open. *)
Lemma open_close_inverse_witness :
  valid demo_w3 ∧ created demo_h1 demo_w3
  ∧ demo_nanoid (nanoid_calls demo_w3) ≠ EmptyString
  ∧ JsMap.get (demo_nanoid (nanoid_calls demo_w3)) (snapshot demo_w3) = None
  ∧ let w1 := snd (handle_open demo_nanoid demo_h1 (title "B") demo_w3) in
    JsMap.size (snapshot w1) = S (JsMap.size (snapshot demo_w3))
    ∧ snapshot (handle_close demo_h1 w1) = snapshot demo_w3.
Proof.
  assert (Hne : demo_nanoid (nanoid_calls demo_w3) ≠ EmptyString) by (vm_compute; discriminate).
  assert (Hfresh : JsMap.get (demo_nanoid (nanoid_calls demo_w3)) (snapshot demo_w3) = None)
    by reflexivity.
  pose proof (open_close_inverse demo_nanoid demo_h1 (title "B") demo_w3
                valid_demo_w3 created_demo_h1 Hne Hfresh) as H.
  split; [exact valid_demo_w3|]. split; [exact created_demo_h1|].
  cbv zeta in H. destruct H as (_ & _ & H1 & _ & _ & H2 & _).
  split; [exact Hne|]. split; [exact Hfresh|].
  split; [exact H1 | exact H2].
Defined.

Lemma stack_ownership_isolation_witness :
  (∀ m n, demo_nanoid m = demo_nanoid n → m = n)
  ∧ (∀ n, demo_nanoid n ≠ EmptyString)
  ∧ created demo_h1 (run demo_nanoid demo_acts init_world)
  ∧ created demo_h2 (run demo_nanoid demo_acts init_world)
  ∧ ids demo_h1 ≠ ids demo_h2
  ∧ let w1 := snd (handle_open demo_nanoid demo_h1 (title "A")
                     (run demo_nanoid demo_acts init_world)) in
    let i2 := fst (handle_open demo_nanoid demo_h2 None w1) in
    let w2 := snd (handle_open demo_nanoid demo_h2 None w1) in
    JsMap.get i2 (snapshot (handle_close demo_h1 w2)) = JsMap.get i2 (snapshot w2)
    ∧ stack demo_h2 (handle_close demo_h1 w2) = [i2].
Proof.
  assert (Hc1 : created demo_h1 (run demo_nanoid demo_acts init_world))
    by (unfold created; vm_compute; lia).
  assert (Hc2 : created demo_h2 (run demo_nanoid demo_acts init_world))
    by (unfold created; vm_compute; lia).
  assert (Hh : ids demo_h1 ≠ ids demo_h2) by (vm_compute; discriminate).
  destruct (stack_ownership_isolation demo_nanoid demo_acts demo_h1 demo_h2
              (title "A") None
              demo_nanoid_injective demo_nanoid_nonempty Hc1 Hc2 Hh)
    as [(_ & _ & _ & _ & Hk & _ & Hst) _].
  split; [exact demo_nanoid_injective|]. split; [exact demo_nanoid_nonempty|].
  split; [exact Hc1|]. split; [exact Hc2|]. split; [exact Hh|].
  split; [apply Hk; vm_compute; discriminate | exact Hst].
Defined.

Lemma registry_consistent_init : registry_consistent init_world.
Proof. split; intros ? ? H; simpl in H; by rewrite lookup_empty in H. Qed.

Lemma registration_idempotent_witness :
  registry_consistent init_world
  ∧ demo_nanoid (nanoid_calls init_world) ≠ EmptyString
  ∧ componentIdMap init_world !! demo_nanoid (nanoid_calls init_world) = None
  ∧ let i1 := fst (registerComponent demo_nanoid TitleModal init_world) in
    let w1 := snd (registerComponent demo_nanoid TitleModal init_world) in
    fst (registerComponent demo_nanoid TitleModal w1) = i1
    ∧ resolveComponent i1 w1 = Some TitleModal.
Proof.
  assert (Hne : demo_nanoid (nanoid_calls init_world) ≠ EmptyString) by (vm_compute; discriminate).
  assert (Hfresh : componentIdMap init_world !! demo_nanoid (nanoid_calls init_world) = None)
    by reflexivity.
  pose proof (registration_idempotent demo_nanoid TitleModal init_world
                registry_consistent_init (λ _, conj Hne Hfresh)) as H.
  cbv zeta in H. destruct H as (H1 & _ & H2 & _).
  split; [exact registry_consistent_init|]. split; [exact Hne|]. split; [exact Hfresh|].
  split; [exact H1 | exact H2].
Defined.

Lemma close_nothing_keeps_contents_witness :
  stack demo_h2 demo_w3 = []
  ∧ valid demo_w3
  ∧ JsMap.get "never-opened" (snapshot demo_w3) = None
  ∧ handle_close demo_h2 demo_w3 = demo_w3
  ∧ snapshot (closeModal "never-opened" demo_w3) = snapshot demo_w3
  ∧ state (closeModal "never-opened" demo_w3) ≠ state demo_w3.
Proof.
  assert (Hs : stack demo_h2 demo_w3 = []) by reflexivity.
  assert (Ha : JsMap.get "never-opened" (snapshot demo_w3) = None) by reflexivity.
  destruct (close_nothing_keeps_contents demo_w3) as [H1 H2].
  destruct (H2 "never-opened" valid_demo_w3 Ha) as (Hc & _ & _ & _ & _ & _ & Hst & _).
  split; [exact Hs|]. split; [exact valid_demo_w3|]. split; [exact Ha|].
  split; [exact (H1 demo_h2 Hs)|]. split; [exact Hc|exact Hst].
Defined.

(** [closeModal] of an id that is not a key of the store is no no-op:
    the world afterwards is another one, with another state object,
    another mapping object and one more call of the listeners. *)
Lemma closeModal_absent_id_is_no_noop :
  JsMap.get "never-opened" (snapshot demo_w3) = None
  ∧ closeModal "never-opened" demo_w3 ≠ demo_w3
  ∧ state (closeModal "never-opened" demo_w3) ≠ state demo_w3
  ∧ current_modals (closeModal "never-opened" demo_w3) ≠ current_modals demo_w3
  ∧ length (notified (closeModal "never-opened" demo_w3))
    = S (length (notified demo_w3)).
Proof.
  split; [reflexivity|].
  split; [intros H; apply (f_equal state) in H; vm_compute in H; discriminate|].
  split; [vm_compute; discriminate|].
  split; [vm_compute; discriminate|].
  vm_compute. reflexivity.
Qed.

(** Two instances, opened by two handles, then teardown. *)
Lemma teardown_clears_all_witness :
  valid demo_w3
  ∧ JsMap.keys (snapshot (run demo_nanoid demo_open_second demo_w3)) = ["k"; "xxk"]
  ∧ stack demo_h1 (run demo_nanoid demo_open_second demo_w3) = ["k"]
  ∧ stack demo_h2 (run demo_nanoid demo_open_second demo_w3) = ["xxk"]
  ∧ JsMap.size
      (snapshot (ModalProvider_unmount (run demo_nanoid demo_open_second demo_w3)))
    = 0
  ∧ JsMap.get "k"
      (snapshot (ModalProvider_unmount (run demo_nanoid demo_open_second demo_w3)))
    = None.
Proof.
  pose proof (teardown_clears_all demo_nanoid demo_open_second demo_w3 valid_demo_w3)
    as H.
  cbv zeta in H. destruct H as (_ & Hsize & Hget & _).
  split; [exact valid_demo_w3|].
  split; [vm_compute; reflexivity|]. split; [vm_compute; reflexivity|].
  split; [vm_compute; reflexivity|]. split; [exact Hsize|exact (Hget "k")].
Defined.

(** The store of the test "should warn when component is not found"
    next to an instance that resolves: the first is skipped with a
    warning, the second is rendered. *)
Lemma render_skips_unresolved_witness :
  snapshot demo_w4 !! 0 = Some ("invalid-modal", demo_invalid_modal)
  ∧ snapshot demo_w4 !! 1 = Some ("ok-modal", demo_ok_modal)
  ∧ fst (ModalRenderer demo_w4) !! 0 = Some None
  ∧ String.append "Modal component with ID "
      (String.append "non-existent-component" " not found")
    ∈ console (snd (ModalRenderer demo_w4))
  ∧ snapshot (snd (ModalRenderer demo_w4)) !! 0
    = Some ("invalid-modal", demo_invalid_modal)
  ∧ fst (ModalRenderer demo_w4) !! 1
    = Some (Some (jsx SimpleModal (jsx_config demo_ok_modal) "ok-modal")).
Proof.
  assert (H0 : snapshot demo_w4 !! 0 = Some ("invalid-modal", demo_invalid_modal))
    by reflexivity.
  assert (H1 : snapshot demo_w4 !! 1 = Some ("ok-modal", demo_ok_modal))
    by reflexivity.
  assert (HC0 : resolveComponent "non-existent-component" demo_w4 = None)
    by reflexivity.
  assert (HC1 : resolveComponent "k" demo_w4 = Some SimpleModal) by reflexivity.
  pose proof (render_skips_unresolved demo_w4) as H.
  cbv zeta in H. destruct H as (_ & _ & _ & H).
  pose proof (H 0 _ _ H0) as Hbad. pose proof (H 1 _ _ H1) as Hok.
  cbn [ModalState.componentId demo_invalid_modal] in Hbad. rewrite HC0 in Hbad.
  cbn [ModalState.componentId demo_ok_modal] in Hok. rewrite HC1 in Hok.
  destruct Hbad as (Hnull & Hwarn & Hkept). destruct Hok as [Hel _].
  split; [exact H0|]. split; [exact H1|]. split; [exact Hnull|].
  split; [exact Hwarn|]. split; [exact Hkept|exact Hel].
Defined.

Lemma snapshot_immutability_witness :
  valid demo_w3
  ∧ maps demo_w3 !! current_modals demo_w3 = Some (snapshot demo_w3)
  ∧ maps (openModal demo_nanoid "other" SimpleModal None demo_w3) !! current_modals demo_w3
      = Some (snapshot demo_w3)
  ∧ maps (closeModal "k" demo_w3) !! current_modals demo_w3 = Some (snapshot demo_w3)
  ∧ snapshot (closeModal "k" demo_w3) = JsMap.delete "k" (snapshot demo_w3).
Proof.
  assert (Hr : maps demo_w3 !! current_modals demo_w3 = Some (snapshot demo_w3))
    by reflexivity.
  destruct (snapshot_immutability demo_nanoid "other" SimpleModal None demo_w3 _ _
              valid_demo_w3 Hr) as [(Ho & _) _].
  destruct (snapshot_immutability demo_nanoid "k" SimpleModal None demo_w3 _ _
              valid_demo_w3 Hr) as [_ (Hc & _ & Hs)].
  split; [exact valid_demo_w3|]. split; [exact Hr|]. split; [exact Ho|].
  split; [exact Hc | exact Hs].
Defined.

Lemma valid_demo_w5 : valid demo_w5.
Proof. unfold valid. vm_compute. lia. Qed.

(** An instance opened with a [key] prop: the element is keyed by that
    prop and carries no [key]; its [close] is the injected closure. *)
Lemma injected_close_is_id_addressed_witness :
  snapshot demo_w5 !! 0 = Some ("k", demo_keyed_modal)
  ∧ ModalState.id demo_keyed_modal = "k"
  ∧ resolveComponent (ModalState.componentId demo_keyed_modal) demo_w5 = Some TitleModal
  ∧ ∃ e, fst (ModalRenderer demo_w5) !! 0 = Some (Some e)
         ∧ el_key e = KeyString "custom-key"
         ∧ el_props e !! "key" = None
         ∧ el_props e !! "close" = Some (VCloseModal "k")
         ∧ JsMap.get "k" (snapshot (call (VCloseModal "k") demo_w5)) = None.
Proof.
  assert (Hn : snapshot demo_w5 !! 0 = Some ("k", demo_keyed_modal)) by reflexivity.
  assert (HC : resolveComponent (ModalState.componentId demo_keyed_modal) demo_w5
               = Some TitleModal) by reflexivity.
  destruct (injected_close_is_id_addressed demo_w5 0 "k" demo_keyed_modal TitleModal
              Hn eq_refl HC)
    as (e & f & He & Hf & _ & _ & Hkey & Hnokey & Hclose & Hcall).
  split; [exact Hn|]. split; [reflexivity|]. split; [exact HC|].
  exists e. split; [exact He|]. rewrite <- Hf.
  split; [rewrite Hkey; reflexivity|]. split; [exact Hnokey|].
  split; [apply Hclose; reflexivity | apply (Hcall demo_w5 valid_demo_w5)].
Defined.


Lemma closeModal_always_swaps_witness :
  valid demo_w3
  ∧ JsMap.get "never-opened" (snapshot demo_w3) = None
  ∧ let w' := closeModal "never-opened" demo_w3 in
    snapshot w' = snapshot demo_w3
    ∧ current_modals w' ≠ current_modals demo_w3
    ∧ length (notified w') = S (length (notified demo_w3)).
Proof.
  assert (Ha : JsMap.get "never-opened" (snapshot demo_w3) = None) by reflexivity.
  destruct (closeModal_always_swaps "never-opened" demo_w3 valid_demo_w3)
    as (_ & _ & _ & Hsame & _ & _ & _ & Hn).
  split; [exact valid_demo_w3|]. split; [exact Ha|].
  split; [exact (Hsame Ha)|]. split; [vm_compute; discriminate|].
  rewrite Hn, length_app. simpl. lia.
Defined.

(** ** The spec's scenarios, evaluated *)

(** Own props win over the injected ones: an instance opened with a
    [close] prop of its own is handed that value, not the closure. *)
Example own_close_prop_shadows_injected :
  el_props (jsx SimpleModal
              (jsx_config (ModalState.mk "a" "c" (Some {["close" := VOpaque 1]})))
              "a") !! "close"
  = Some (VOpaque 1).
Proof. reflexivity. Qed.

(** The store of the test "should warn when component is not found",
    with one more instance that resolves. *)
Example render_demo_w4 :
  fst (ModalRenderer demo_w4)
  = [None;
     Some (mkElement SimpleModal (KeyString "ok-modal")
             (<["close" := VCloseModal "ok-modal"]> (<["id" := VString "ok-modal"]> ∅)))]
  ∧ console (snd (ModalRenderer demo_w4))
    = ["Modal component with ID non-existent-component not found"]
  ∧ JsMap.keys (snapshot (snd (ModalRenderer demo_w4))) = ["invalid-modal"; "ok-modal"].
Proof. repeat split; vm_compute; reflexivity. Qed.

Example close_on_fresh_handle : handle_close demo_h1 demo_w2 = demo_w2.
Proof. reflexivity. Qed.

(** ** More facts about [JsMap] *)

Module JsMapOrder.
Section Facts.
Context {V : Type}.
Implicit Types (m : JsMap.t V) (k : string) (v : V).

Lemma keys_set_present m k v old :
  JsMap.get k m = Some old → JsMap.keys (JsMap.set k v m) = JsMap.keys m.
Proof.
  induction m as [|[k' v'] m IH]; simpl; [done|].
  destruct (String.eqb k' k); simpl; [done|]. intros H. by rewrite IH.
Qed.

Lemma size_set_present m k v old :
  JsMap.get k m = Some old → JsMap.size (JsMap.set k v m) = JsMap.size m.
Proof.
  unfold JsMap.size. induction m as [|[k' v'] m IH]; simpl; [done|].
  destruct (String.eqb k' k); simpl; [done|]. intros H. by rewrite IH.
Qed.

Lemma elem_of_set m k v k' v' :
  (k', v') ∈ JsMap.set k v m → (k' = k ∧ v' = v) ∨ (k', v') ∈ m.
Proof.
  induction m as [|[k0 v0] m IH]; simpl.
  - intros H. apply list_elem_of_singleton in H as [= -> ->]. by left.
  - destruct (String.eqb_spec k0 k) as [->|Hne]; intros H;
      apply elem_of_cons in H as [H|H].
    + injection H as -> ->. by left.
    + right. by apply elem_of_cons; right.
    + right. apply elem_of_cons. by left.
    + destruct (IH H) as [?|?]; [by left|]. right. by apply elem_of_cons; right.
Qed.

Lemma elem_of_delete m k k' v' :
  (k', v') ∈ JsMap.delete k m → (k', v') ∈ m ∧ k' ≠ k.
Proof.
  induction m as [|[k0 v0] m IH]; simpl; [by intros ?%elem_of_nil|].
  destruct (String.eqb_spec k0 k) as [->|Hne]; intros H.
  - destruct (IH H). split; [by apply elem_of_cons; right|done].
  - apply elem_of_cons in H as [H|H].
    + injection H as -> ->. split; [apply elem_of_cons; by left|done].
    + destruct (IH H). split; [by apply elem_of_cons; right|done].
Qed.

Lemma get_Some_elem_of m k v : JsMap.get k m = Some v → (k, v) ∈ m.
Proof.
  induction m as [|[k0 v0] m IH]; simpl; [done|].
  destruct (String.eqb_spec k0 k) as [->|Hne].
  - intros [= ->]. apply elem_of_cons. by left.
  - intros H. apply elem_of_cons. right. by apply IH.
Qed.

Lemma keys_delete_sublist m k : sublist (JsMap.keys (JsMap.delete k m)) (JsMap.keys m).
Proof.
  induction m as [|[k' v'] m IH]; simpl; [done|].
  destruct (String.eqb k' k); simpl; by constructor.
Qed.

Lemma NoDup_keys_delete m k :
  NoDup (JsMap.keys m) → NoDup (JsMap.keys (JsMap.delete k m)).
Proof. intros H. exact (sublist_NoDup _ _ H (keys_delete_sublist m k)). Qed.

Lemma NoDup_keys_set m k v :
  NoDup (JsMap.keys m) → NoDup (JsMap.keys (JsMap.set k v m)).
Proof.
  intros Hnd. destruct (JsMap.get k m) as [old|] eqn:Hg.
  - by rewrite (keys_set_present m k v old Hg).
  - rewrite (JsMapFacts.set_absent m k v Hg). unfold JsMap.keys.
    rewrite map_app. simpl. apply NoDup_app. split; [done|].
    split; [|apply NoDup_singleton].
    intros x Hx Hx'. apply list_elem_of_singleton in Hx' as ->.
    by apply JsMapFacts.get_None_keys in Hg.
Qed.

Lemma delete_delete m k : JsMap.delete k (JsMap.delete k m) = JsMap.delete k m.
Proof. apply JsMapFacts.delete_absent, JsMapFacts.get_delete_eq. Qed.

Lemma delete_comm m k k' :
  JsMap.delete k (JsMap.delete k' m) = JsMap.delete k' (JsMap.delete k m).
Proof.
  induction m as [|[k0 v0] m IH]; simpl; [done|].
  destruct (String.eqb k0 k') eqn:E1; destruct (String.eqb k0 k) eqn:E2;
    simpl; rewrite ?E1, ?E2; by rewrite ?IH.
Qed.
End Facts.
End JsMapOrder.

(** ** The shape of every step *)

Section StepShapes.
Variable nanoid_output : nat -> string.
Implicit Types (w : World) (i k : string) (c : ModalComponent) (h : CreatedModal)
               (a : Action) (acts : list Action).

Local Abbreviation registerComponent := (registerComponent nanoid_output).
Local Abbreviation openModal := (openModal nanoid_output).
Local Abbreviation step_shape := (step_shape nanoid_output).

Lemma same_store_refl w : same_store w w.
Proof. unfold same_store. by repeat split. Qed.

Lemma same_store_snapshot w w1 : same_store w w1 → snapshot w1 = snapshot w.
Proof.
  intros (Hm & Ho & Hs & _).
  unfold snapshot, current_modals, getState, obj_at, Map_entries.
  by rewrite Hm, Ho, Hs.
Qed.

Lemma same_store_valid w w1 : same_store w w1 → valid w → valid w1.
Proof. intros (_ & Ho & Hs & _). unfold valid. by rewrite Ho, Hs. Qed.

Lemma same_store_resolve w w1 i :
  same_store w w1 → resolveComponent i w1 = resolveComponent i w.
Proof. intros (_&_&_&_&_& Hi &_). unfold resolveComponent. by rewrite Hi. Qed.

Lemma step_has_shape a w : valid w → step_shape a w (step nanoid_output a w).
Proof.
  intros Hv. destruct a as [c|h p|h|i c p|i|pairs| |]; unfold step.
  - apply shape_frame. unfold same_store. by repeat split.
  - rewrite handle_open_eq. simpl. eapply shape_open; [|reflexivity].
    unfold same_store. simpl. repeat split; try done. lia.
  - destruct (stack_cases (stack h w)) as [He|(s & x & Hs)].
    + rewrite handle_close_empty by done. apply shape_frame, same_store_refl.
    + rewrite (handle_close_snoc h s x w Hs). simpl. destruct (truthy x).
      * eapply shape_close; [|reflexivity]. unfold same_store. by repeat split.
      * apply shape_frame. unfold same_store. by repeat split.
  - eapply shape_open; [apply same_store_refl|reflexivity].
  - eapply shape_close; [apply same_store_refl|reflexivity].
  - by eapply shape_set.
  - by apply shape_render.
  - by apply (shape_set _ _ _ _ []).
Qed.

(** The two ways [registerComponent] can go. *)
Lemma registerComponent_cases c w :
  (∃ i, componentRegistry w !! c = Some i ∧ i ≠ EmptyString
        ∧ registerComponent c w = (i, w))
  ∨ (truthy_opt (componentRegistry w !! c) = false
     ∧ registerComponent c w =
         (nanoid_output (nanoid_calls w),
          with_registry (<[c := nanoid_output (nanoid_calls w)]> (componentRegistry w))
                        (<[nanoid_output (nanoid_calls w) := c]> (componentIdMap w))
                        (with_nanoid_calls (S (nanoid_calls w)) w))).
Proof.
  unfold registerComponent.
  destruct (componentRegistry w !! c) as [i|] eqn:Hc; simpl.
  - destruct (truthy i) eqn:Ht.
    + left. exists i. split; [done|]. split; [by apply truthy_ne|done].
    + by right.
  - by right.
Qed.

Lemma registerComponent_resolves c w :
  registry_backed w →
  is_Some (componentIdMap (snd (registerComponent c w)) !! fst (registerComponent c w))
  ∧ registry_backed (snd (registerComponent c w))
  ∧ (∀ j, is_Some (componentIdMap w !! j) →
          is_Some (componentIdMap (snd (registerComponent c w)) !! j)).
Proof.
  intros Hb. destruct (registerComponent_cases c w) as [(i & Hc & Hi & ->)|[_ ->]]; simpl.
  - split; [by eapply Hb|]. by split.
  - set (j := nanoid_output (nanoid_calls w)).
    split; [rewrite lookup_insert_eq; by eexists|].
    split.
    + intros c' i'. simpl. rewrite lookup_insert. case_decide.
      * intros [= <-]. rewrite lookup_insert_eq. by eexists.
      * intros Hl. rewrite lookup_insert. case_decide; [by eexists|by eapply Hb].
    + intros j' Hj'. rewrite lookup_insert. case_decide; [by eexists|done].
Qed.
End StepShapes.

(** ** Further properties of the store and the handles *)

Section StoreProperties.
Variable nanoid_output : nat -> string.
Implicit Types (w : World) (i k : string) (c : ModalComponent) (h : CreatedModal).

Local Abbreviation registerComponent := (registerComponent nanoid_output).
Local Abbreviation openModal := (openModal nanoid_output).
Local Abbreviation handle_open := (handle_open nanoid_output).

(** X1. [openModal] on an id that is already a key overwrites in place:
    the keys and their order are the same, so is the size; the entry of
    that id is the new one; every other entry is as before. *)
Theorem openModal_overwrites_in_place i c (p : option (gmap string JsValue)) w
    (old : ModalState.t) :
  valid w → JsMap.get i (snapshot w) = Some old →
  let w' := openModal i c p w in
  JsMap.keys (snapshot w') = JsMap.keys (snapshot w)
  ∧ JsMap.size (snapshot w') = JsMap.size (snapshot w)
  ∧ JsMap.get i (snapshot w')
    = Some (ModalState.mk i (fst (registerComponent c w)) p)
  ∧ (∀ k, k ≠ i → JsMap.get k (snapshot w') = JsMap.get k (snapshot w)).
Proof.
  intros Hv Hold w'. subst w'. rewrite snapshot_openModal by done.
  split; [by eapply JsMapOrder.keys_set_present|].
  split; [by eapply JsMapOrder.size_set_present|].
  split; [apply JsMapFacts.get_set_eq|].
  intros k Hk. by apply JsMapFacts.get_set_ne.
Qed.

(** X2. The id that [open] returns is live at once, fresh or not: it
    is a key of the store, its entry carries that id and the props given;
    it is the last element of the handle's own array; the arrays of the
    other handles are as before; and the listeners were called exactly
    once, with the new state and the state before. *)
Theorem open_returns_live_id h (p : option (gmap string JsValue)) w :
  valid w → created h w →
  let i := fst (handle_open h p w) in
  let w' := snd (handle_open h p w) in
  (∃ componentId,
     JsMap.get i (snapshot w') = Some (ModalState.mk i componentId p))
  ∧ last (stack h w') = Some i
  ∧ (∀ h', ids h' ≠ ids h → stack h' w' = stack h' w)
  ∧ notified w' = notified w ++ [(state w', state w)]
  ∧ state w' ≠ state w.
Proof.
  intros Hv Hc i w'.
  destruct (handle_open_spec nanoid_output h p w Hv) as (Hi & Hv1 & Ha1 & Hs1).
  fold i in Hi. fold w' in Hv1, Ha1, Hs1. rewrite <- Hi in Ha1, Hs1.
  split; [eexists; rewrite Hs1; apply JsMapFacts.get_set_eq|].
  split.
  { rewrite (stack_insert_arrays h (stack h w ++ [i]) w w' Hc Ha1).
    apply last_snoc. }
  split.
  { intros h' Hne. eapply (stack_insert_arrays_ne h h'); [congruence|exact Ha1]. }
  subst w'. rewrite handle_open_eq. simpl.
  set (w1 := with_arrays _ _).
  assert (Hv1' : valid w1) by exact Hv.
  rewrite openModal_eq by done. simpl.
  destruct (registerComponent_frame nanoid_output (component h) w1)
    as (_ & Ho & Hst & Hn & _).
  rewrite Ho, Hst, Hn. split; [done|].
  unfold valid in Hv. simpl. lia.
Qed.

(** X3. Two calls of [closeModal]: closing the same id twice leaves the
    contents of closing it once, though the listeners are called both
    times; and closing two ids gives the same contents in either order. *)
Theorem closeModal_twice_and_commute i k w :
  valid w →
  snapshot (closeModal i (closeModal i w)) = snapshot (closeModal i w)
  ∧ length (notified (closeModal i (closeModal i w))) = 2 + length (notified w)
  ∧ snapshot (closeModal i (closeModal k w))
    = snapshot (closeModal k (closeModal i w)).
Proof.
  intros Hv.
  assert (Hi : valid (closeModal i w)) by by apply valid_closeModal.
  assert (Hk : valid (closeModal k w)) by by apply valid_closeModal.
  rewrite !snapshot_closeModal by done.
  split; [apply JsMapOrder.delete_delete|].
  split; [|apply JsMapOrder.delete_comm].
  rewrite (closeModal_eq (closeModal i w)) by done. simpl.
  rewrite closeModal_eq by done. simpl.
  rewrite !length_app. simpl. lia.
Qed.

(** X4. [close] is confined to the handle's own array and to the id on
    top of it: the array loses its last element (an empty array stays
    empty), the arrays of the other handles are as before, every store
    key other than that last id keeps its entry, and the registry is
    not touched. *)
Theorem close_pops_own_top_only h w :
  valid w →
  stack h (handle_close h w) = removelast (stack h w)
  ∧ (∀ h', ids h' ≠ ids h → stack h' (handle_close h w) = stack h' w)
  ∧ (∀ k, last (stack h w) ≠ Some k →
       JsMap.get k (snapshot (handle_close h w)) = JsMap.get k (snapshot w))
  ∧ componentRegistry (handle_close h w) = componentRegistry w
  ∧ componentIdMap (handle_close h w) = componentIdMap w.
Proof.
  intros Hv. destruct (stack_cases (stack h w)) as [He|(s & x & Hs)].
  - rewrite handle_close_empty by done. rewrite He. by repeat split.
  - pose proof (stack_snoc_lookup h s x w Hs) as Hl.
    assert (Hc : created h w) by (by apply lookup_lt_Some in Hl).
    rewrite (handle_close_snoc h s x w Hs), Hs, removelast_last, last_snoc. simpl.
    set (w1 := with_arrays _ w).
    assert (Ha1 : arrays w1 = <[ids h := s]> (arrays w)) by reflexivity.
    assert (Hv1 : valid w1) by exact Hv.
    destruct (truthy x).
    + assert (Ha2 : arrays (closeModal x w1) = <[ids h := s]> (arrays w))
        by (by rewrite arrays_closeModal).
      split; [exact (stack_insert_arrays h s w _ Hc Ha2)|].
      split.
      { intros h' Hne. eapply (stack_insert_arrays_ne h h'); [congruence|exact Ha2]. }
      split.
      { intros k Hk. rewrite snapshot_closeModal by done.
        apply JsMapFacts.get_delete_ne. congruence. }
      by rewrite closeModal_eq.
    + split; [exact (stack_insert_arrays h s w _ Hc Ha1)|].
      split.
      { intros h' Hne. eapply (stack_insert_arrays_ne h h'); [congruence|exact Ha1]. }
      by repeat split.
Qed.

(** X5. [createModal] only makes a handle.  The handle's array is new
    and empty, it is no array of a handle made before, and those keep
    their contents; the store, the registry (the component is not
    registered until the first [open]), the id counter and the listeners
    are left alone. *)
Theorem createModal_makes_fresh_handle c w :
  let h := fst (createModal c w) in
  let w' := snd (createModal c w) in
  component h = c
  ∧ created h w' ∧ ¬ created h w
  ∧ stack h w' = []
  ∧ (∀ h', created h' w →
       created h' w' ∧ ids h' ≠ ids h ∧ stack h' w' = stack h' w)
  ∧ snapshot w' = snapshot w
  ∧ componentRegistry w' = componentRegistry w
  ∧ componentIdMap w' = componentIdMap w
  ∧ nanoid_calls w' = nanoid_calls w
  ∧ notified w' = notified w.
Proof.
  intros h w'. subst h w'. unfold createModal, created, stack. simpl.
  split; [done|]. split; [rewrite length_app; simpl; lia|]. split; [lia|].
  split; [by rewrite lookup_snoc_length|].
  split; [|by repeat split].
  intros h' Hc. split; [rewrite length_app; simpl; lia|]. split; [lia|].
  by rewrite lookup_app_l.
Qed.

(** X6. Teardown resets the store only.  The provider's effect cleanup
    leaves the registry and every handle's array as they are; so a handle
    that had an instance open still holds its id, and its next [close]
    pops that id and finds the store empty before and after. *)
Theorem teardown_keeps_registry_and_stacks h w :
  valid w →
  let w' := ModalProvider_unmount w in
  componentRegistry w' = componentRegistry w
  ∧ componentIdMap w' = componentIdMap w
  ∧ arrays w' = arrays w
  ∧ stack h w' = stack h w
  ∧ stack h (handle_close h w') = removelast (stack h w)
  ∧ snapshot (handle_close h w') = JsMap.empty.
Proof.
  intros Hv w'.
  assert (Hw' : w' = swapped JsMap.empty w) by by apply ModalProvider_unmount_eq.
  assert (Hv' : valid w') by (rewrite Hw'; apply valid_swapped).
  assert (Hs' : snapshot w' = JsMap.empty) by (rewrite Hw'; apply snapshot_swapped).
  assert (Ha' : arrays w' = arrays w) by by rewrite Hw'.
  assert (Hst : stack h w' = stack h w) by (unfold stack; by rewrite Ha').
  split; [by rewrite Hw'|]. split; [by rewrite Hw'|]. split; [done|]. split; [done|].
  destruct (stack_cases (stack h w')) as [He|(s & x & Hs)].
  - rewrite handle_close_empty by done. rewrite <- Hst, He. by split.
  - pose proof (stack_snoc_lookup h s x w' Hs) as Hl.
    assert (Hc : created h w') by (by apply lookup_lt_Some in Hl).
    rewrite (handle_close_snoc h s x w' Hs), <- Hst, Hs, removelast_last. simpl.
    set (w1 := with_arrays _ w').
    assert (Ha1 : arrays w1 = <[ids h := s]> (arrays w')) by reflexivity.
    assert (Hv1 : valid w1) by exact Hv'.
    destruct (truthy x).
    + split.
      * eapply (stack_insert_arrays h s w'); [done|]. by rewrite arrays_closeModal.
      * rewrite snapshot_closeModal by done.
        change (snapshot w1) with (snapshot w'). by rewrite Hs'.
    + split; [exact (stack_insert_arrays h s w' _ Hc Ha1)|exact Hs'].
Qed.
End StoreProperties.

(** ** Invariants of runs *)

Section RunInvariants.
Variable nanoid_output : nat -> string.
Implicit Types (w : World) (i k : string) (c : ModalComponent) (h : CreatedModal)
               (a : Action) (acts : list Action).

Local Abbreviation registerComponent := (registerComponent nanoid_output).
Local Abbreviation openModal := (openModal nanoid_output).
Local Abbreviation step_shape := (step_shape nanoid_output).
Local Abbreviation registry_from_nanoid := (registry_from_nanoid nanoid_output).

(** What a step does to the registry: nothing, or one new pair. *)
Lemma shape_registry a w w' :
  valid w → step_shape a w w' →
  (componentRegistry w' = componentRegistry w
   ∧ componentIdMap w' = componentIdMap w
   ∧ (nanoid_calls w <= nanoid_calls w')%nat)
  ∨ (∃ c n,
       (nanoid_calls w <= n)%nat ∧ (n < nanoid_calls w')%nat
       ∧ truthy_opt (componentRegistry w !! c) = false
       ∧ componentRegistry w' = <[c := nanoid_output n]> (componentRegistry w)
       ∧ componentIdMap w' = <[nanoid_output n := c]> (componentIdMap w)).
Proof.
  intros Hv [Hs|i c p w1 Hs ->|i w1 Hs ->|pairs -> _| ->].
  - destruct Hs as (_&_&_&_& Hr & Hi & _ & Hn). by left.
  - pose proof (same_store_valid w w1 Hs Hv) as Hv1.
    destruct Hs as (_&_&_&_& Hr & Hi & _ & Hn).
    rewrite openModal_eq by done. simpl.
    destruct (registerComponent_cases nanoid_output c w1)
      as [(j & Hc & Hj & ->)|[Hf ->]]; simpl.
    + by left.
    + right. exists c, (nanoid_calls w1). rewrite <- Hr, <- Hi.
      split; [done|]. split; [lia|]. by repeat split.
  - pose proof (same_store_valid w w1 Hs Hv) as Hv1.
    destruct Hs as (_&_&_&_& Hr & Hi & _ & Hn).
    rewrite closeModal_eq by done. by left.
  - rewrite setState_modals_eq by done. left. by repeat split.
  - unfold ModalRenderer. rewrite render_all_spec. left. by repeat split.
Qed.

(** What a step does to the contents of the store. *)
Lemma shape_contents a w w' :
  valid w → step_shape a w w' →
  snapshot w' = snapshot w
  ∨ (∃ i componentId p,
       snapshot w' = JsMap.set i (ModalState.mk i componentId p) (snapshot w)
       ∧ (registry_backed w → is_Some (componentIdMap w' !! componentId)))
  ∨ (∃ i, snapshot w' = JsMap.delete i (snapshot w))
  ∨ (∃ pairs, snapshot w' = Map_of_pairs pairs ∧ (is_manual a = false → pairs = [])).
Proof.
  intros Hv [Hs|i c p w1 Hs ->|i w1 Hs ->|pairs -> Hp| ->].
  - left. by apply same_store_snapshot.
  - pose proof (same_store_valid w w1 Hs Hv) as Hv1.
    right. left. exists i, (fst (registerComponent c w1)), p.
    rewrite snapshot_openModal by done.
    rewrite (same_store_snapshot w w1 Hs). split; [done|].
    intros Hb. rewrite openModal_eq by done. simpl.
    assert (Hb1 : registry_backed w1).
    { destruct Hs as (_&_&_&_& Hr & Hi & _).
      intros c' j. rewrite Hr, Hi. apply Hb. }
    by destruct (registerComponent_resolves nanoid_output c w1 Hb1) as [H _].
  - pose proof (same_store_valid w w1 Hs Hv) as Hv1.
    right. right. left. exists i. rewrite snapshot_closeModal by done.
    by rewrite (same_store_snapshot w w1 Hs).
  - right. right. right. exists pairs.
    rewrite setState_modals_eq by done. by rewrite snapshot_swapped.
  - left. unfold ModalRenderer. by rewrite render_all_spec.
Qed.

Lemma run_snoc acts a w :
  run nanoid_output (acts ++ [a]) w = step nanoid_output a (run nanoid_output acts w).
Proof. unfold run. by rewrite fold_left_app. Qed.

Lemma api_only_snoc acts a : api_only (acts ++ [a]) → api_only acts ∧ is_manual a = false.
Proof.
  unfold api_only. rewrite Forall_app, Forall_singleton. tauto.
Qed.

Lemma NoDup_keys_Map_of_pairs pairs : NoDup (JsMap.keys (Map_of_pairs pairs)).
Proof.
  unfold Map_of_pairs.
  assert (H : ∀ m0 : JsMap.t ModalState.t, NoDup (JsMap.keys m0) →
            NoDup (JsMap.keys (fold_left (λ m kv, JsMap.set kv.1 kv.2 m) pairs m0))).
  { induction pairs as [|[k v] pairs IH]; intros m0 H0; simpl; [done|].
    apply IH. by apply JsMapOrder.NoDup_keys_set. }
  apply H. constructor.
Qed.

Lemma no_unresolved w :
  all_resolve w → List.filter (unresolved w) (JsMap.values (snapshot w)) = [].
Proof.
  unfold all_resolve, JsMap.values. induction (snapshot w) as [|[k m] l IH];
    intros Hall; simpl; [done|].
  unfold unresolved at 1.
  destruct (Hall k m) as [C ->]; [apply elem_of_cons; by left|].
  apply IH. intros k' m' Hin. apply (Hall k' m'). by apply elem_of_cons; right.
Qed.

(** One step keeps the keys of the store apart, and keeps every entry
    under its own id unless it installs a mapping by hand. *)
Lemma step_store_keys a w :
  valid w →
  (NoDup (JsMap.keys (snapshot w)) →
   NoDup (JsMap.keys (snapshot (step nanoid_output a w))))
  ∧ (is_manual a = false → keyed_by_id w →
     keyed_by_id (step nanoid_output a w)).
Proof.
  intros Hv.
  pose proof (shape_contents a w _ Hv (step_has_shape nanoid_output a w Hv)) as Hsh.
  split.
  - intros Hnd.
    destruct Hsh as [->|[(i & cid & p & -> & _)|[(i & ->)|(pairs & -> & _)]]].
    + done.
    + by apply JsMapOrder.NoDup_keys_set.
    + by apply JsMapOrder.NoDup_keys_delete.
    + apply NoDup_keys_Map_of_pairs.
  - intros Ha Hkey k m.
    destruct Hsh as [->|[(i & cid & p & -> & _)|[(i & ->)|(pairs & -> & Hp)]]].
    + apply Hkey.
    + intros [[-> ->]|Hin]%JsMapOrder.elem_of_set; [done|by apply Hkey].
    + intros [Hin _]%JsMapOrder.elem_of_delete. by apply Hkey.
    + rewrite (Hp Ha). by intros ?%elem_of_nil.
Qed.

Lemma run_all_resolve acts :
  api_only acts →
  let w := run nanoid_output acts init_world in
  registry_backed w ∧ all_resolve w ∧ console w = [].
Proof.
  intros Hapi w. subst w.
  induction acts as [|a acts IH] using rev_ind.
  - simpl. split; [|split; [|done]].
    + intros c i H. simpl in H. by rewrite lookup_empty in H.
    + intros k m Hin. by apply elem_of_nil in Hin.
  - apply api_only_snoc in Hapi as [Hapi Ha]. specialize (IH Hapi).
    rewrite run_snoc. set (w := run nanoid_output acts init_world) in *.
    destruct IH as (Hb & Hall & Hcon).
    assert (Hv : valid w) by apply run_valid, valid_init.
    pose proof (step_has_shape nanoid_output a w Hv) as Hshape.
    pose proof (shape_contents a w _ Hv Hshape) as Hsh.
    pose proof (shape_registry a w _ Hv Hshape) as Hreg.
    set (w' := step nanoid_output a w) in *.
    assert (Hmono : ∀ j, is_Some (componentIdMap w !! j) →
                         is_Some (componentIdMap w' !! j)).
    { destruct Hreg as [(_ & -> & _)|(c & n & _ & _ & _ & _ & ->)]; [done|].
      intros j Hj. rewrite lookup_insert. by case_decide. }
    assert (Hb' : registry_backed w').
    { destruct Hreg as [(Hr & Hi & _)|(c & n & _ & _ & _ & Hr & Hi)];
        intros c' j; rewrite Hr.
      - rewrite Hi. apply Hb.
      - rewrite lookup_insert. case_decide.
        + intros [= <-]. rewrite Hi, lookup_insert_eq. by eexists.
        + intros Hl. apply Hmono. by eapply Hb. }
    split; [done|]. split.
    + intros k m. unfold resolveComponent.
      destruct Hsh as [->|[(i & cid & p & -> & Hnew)|[(i & ->)|(pairs & -> & Hp)]]].
      * intros Hin. apply Hmono. by eapply Hall.
      * intros [[-> ->]|Hin]%JsMapOrder.elem_of_set; [by apply Hnew|].
        apply Hmono. by eapply Hall.
      * intros [Hin _]%JsMapOrder.elem_of_delete. apply Hmono. by eapply Hall.
      * rewrite (Hp Ha). by intros ?%elem_of_nil.
    + destruct Hshape as [Hs|i c p w1 Hs Hw'|i w1 Hs Hw'|pairs Hw' _|Hw'].
      * destruct Hs as (_&_&_&_&_&_& Hc &_). by rewrite Hc.
      * pose proof (same_store_valid w w1 Hs Hv) as Hv1.
        destruct Hs as (_&_&_&_&_&_& Hc &_).
        rewrite Hw', openModal_eq by done. simpl.
        destruct (registerComponent_frame nanoid_output c w1) as (_&_&_&_&_& Hc' &_).
        by rewrite Hc', Hc.
      * pose proof (same_store_valid w w1 Hs Hv) as Hv1.
        destruct Hs as (_&_&_&_&_&_& Hc &_).
        rewrite Hw', closeModal_eq by done. simpl. by rewrite Hc.
      * rewrite Hw', setState_modals_eq by done. done.
      * rewrite Hw'. unfold ModalRenderer. rewrite render_all_spec. simpl.
        by rewrite (no_unresolved w Hall), Hcon.
Qed.

(** X7. The store's keys.  As long as no mapping was installed by
    hand, every entry of the store is kept under its own [id]; and in
    every reachable world no key occurs twice in the mapping. *)
Theorem store_keys_invariant acts :
  let w := run nanoid_output acts init_world in
  NoDup (JsMap.keys (snapshot w))
  ∧ (api_only acts → keyed_by_id w).
Proof.
  induction acts as [|a acts IH] using rev_ind.
  - simpl. split; [constructor|]. intros _ k m Hin. by apply elem_of_nil in Hin.
  - rewrite run_snoc. set (w := run nanoid_output acts init_world) in *.
    cbv zeta in IH. destruct IH as [Hnd Hkey].
    assert (Hv : valid w) by apply run_valid, valid_init.
    destruct (step_store_keys a w Hv) as [Hstep_nd Hstep_key].
    cbv zeta. split; [by apply Hstep_nd|].
    intros [Hapi Ha]%api_only_snoc. apply Hstep_key; [done|by apply Hkey].
Qed.

(** X8. No warning without a hand-made mapping.  As long as the store
    is only changed through the handles, [openModal], [closeModal] and
    the provider, every stored instance resolves: a render pass returns
    an element for every instance, none is skipped, and nothing has ever
    been passed to [console.warn]. *)
Theorem api_only_never_warns acts :
  api_only acts →
  let w := run nanoid_output acts init_world in
  all_resolve w
  ∧ Forall (λ e, is_Some e) (fst (ModalRenderer w))
  ∧ length (fst (ModalRenderer w)) = JsMap.size (snapshot w)
  ∧ console (snd (ModalRenderer w)) = [].
Proof.
  intros Hapi w.
  destruct (run_all_resolve acts Hapi) as (Hb & Hall & Hcon). fold w in Hb, Hall, Hcon.
  split; [done|]. unfold ModalRenderer. rewrite render_all_spec. simpl.
  split.
  { apply Forall_forall. intros e He. apply list_elem_of_In, in_map_iff in He.
    destruct He as (m & <- & Hm). unfold JsMap.values in Hm.
    apply in_map_iff in Hm as ([k m'] & Hm' & Hin). simpl in Hm'. subst m'.
    apply list_elem_of_In in Hin.
    unfold rendered. destruct (Hall k m Hin) as [C ->]. by eexists. }
  split.
  { unfold JsMap.values, JsMap.size. by rewrite !length_map. }
  by rewrite (no_unresolved w Hall), Hcon.
Qed.
End RunInvariants.

(** ** The registry over runs *)

Section RegistryInvariants.
Variable nanoid_output : nat -> string.
Implicit Types (w : World) (i k : string) (c : ModalComponent) (h : CreatedModal)
               (a : Action) (acts : list Action).

Local Abbreviation registerComponent := (registerComponent nanoid_output).
Local Abbreviation openModal := (openModal nanoid_output).
Local Abbreviation registry_from_nanoid := (registry_from_nanoid nanoid_output).

Lemma truthy_opt_false_Some c i w :
  truthy_opt (componentRegistry w !! c) = false →
  componentRegistry w !! c = Some i → i = EmptyString.
Proof.
  intros Hf Hc. rewrite Hc in Hf. simpl in Hf.
  destruct (decide (i = EmptyString)) as [|Hne]; [done|].
  apply truthy_ne in Hne. congruence.
Qed.

(** X9. Once a component has an id, it keeps it.  Whatever runs
    afterwards (other registrations, closes, renders, teardown of the
    provider, mappings installed by hand) the registry still maps the
    component to the same id: nothing is ever evicted or reassigned. *)
Theorem registered_id_is_stable acts c i w :
  valid w → componentRegistry w !! c = Some i → i ≠ EmptyString →
  componentRegistry (run nanoid_output acts w) !! c = Some i
  ∧ fst (registerComponent c (run nanoid_output acts w)) = i.
Proof.
  intros Hv Hc Hi.
  assert (H : componentRegistry (run nanoid_output acts w) !! c = Some i).
  { induction acts as [|a acts IH] using rev_ind; [done|].
    rewrite run_snoc. set (w1 := run nanoid_output acts w) in *.
    assert (Hv1 : valid w1) by by apply run_valid.
    destruct (shape_registry nanoid_output a w1 _ Hv1
                (step_has_shape nanoid_output a w1 Hv1))
      as [(-> & _)|(c' & n & _ & _ & Hf & -> & _)]; [done|].
    rewrite lookup_insert_ne; [done|]. intros ->.
    by pose proof (truthy_opt_false_Some c i w1 Hf IH). }
  split; [done|].
  by rewrite (registerComponent_cached nanoid_output c i _ H Hi).
Qed.

Hypothesis nanoid_injective : ∀ m n, nanoid_output m = nanoid_output n → m = n.
Hypothesis nanoid_nonempty : ∀ n, nanoid_output n ≠ EmptyString.

Lemma registry_invariants_step a w :
  valid w → registry_consistent w → registry_from_nanoid w →
  registry_consistent (step nanoid_output a w)
  ∧ registry_from_nanoid (step nanoid_output a w).
Proof.
  intros Hv [Hfw Hbw] Hfrom.
  destruct (shape_registry nanoid_output a w _ Hv (step_has_shape nanoid_output a w Hv))
    as [(Hr & Hi & Hn)|(c & n & Hle & Hlt & Hf & Hr & Hi)].
  - split.
    + split; intros x y; rewrite Hr, Hi; [apply Hfw|apply Hbw].
    + intros j c'. rewrite Hi. intros Hj.
      destruct (Hfrom j c' Hj) as (n & Hlt & ->). exists n. split; [lia|done].
  - set (j := nanoid_output n) in *.
    assert (Hnew : componentIdMap w !! j = None).
    { destruct (componentIdMap w !! j) as [c0|] eqn:Hj; [|done].
      destruct (Hfrom j c0 Hj) as (n0 & Hlt0 & Heq).
      apply nanoid_injective in Heq. lia. }
    assert (Hc : componentRegistry w !! c = None).
    { destruct (componentRegistry w !! c) as [i0|] eqn:Hc0; [|done].
      rewrite <- Hc0 in Hf.
      pose proof (truthy_opt_false_Some c i0 w Hf Hc0) as ->.
      by destruct (Hfw _ _ Hc0). }
    split.
    + split.
      * intros c' i'. rewrite Hr, Hi, lookup_insert. case_decide as Hcc.
        -- intros [= <-]. subst c'. split; [apply nanoid_nonempty|].
           by rewrite lookup_insert_eq.
        -- intros Hl. destruct (Hfw _ _ Hl) as [Hi' Hres]. split; [done|].
           rewrite lookup_insert_ne; [done|]. intros Heq. congruence.
      * intros i' c'. rewrite Hr, Hi, lookup_insert. case_decide as Hji.
        -- intros [= <-]. subst i'. by rewrite lookup_insert_eq.
        -- intros Hl. rewrite lookup_insert_ne; [by apply Hbw|].
           intros ->. apply Hbw in Hl. congruence.
    + intros i' c'. rewrite Hi, lookup_insert. case_decide as Hji.
      * intros _. exists n. split; [lia|done].
      * intros Hl. destruct (Hfrom i' c' Hl) as (n0 & Hlt0 & ->).
        exists n0. split; [lia|done].
Qed.

(** X10. The registry's law holds in every reachable world, when
    [nanoid()] never repeats an id and never returns the empty string:
    the two maps are each other's inverse, so an id resolves to the one
    component it was given to, and two different components never share
    an id. *)
Theorem registry_consistent_reachable acts :
  let w := run nanoid_output acts init_world in
  registry_consistent w
  ∧ (∀ c i, componentRegistry w !! c = Some i → resolveComponent i w = Some c)
  ∧ (∀ c c' i, componentRegistry w !! c = Some i →
               componentRegistry w !! c' = Some i → c = c').
Proof.
  intros w.
  assert (Hinv : registry_consistent w ∧ registry_from_nanoid w).
  { subst w. induction acts as [|a acts IH] using rev_ind.
    - split; [split|]; intros x y H; simpl in H; by rewrite lookup_empty in H.
    - rewrite run_snoc. destruct IH as [Hc Hf].
      apply registry_invariants_step; [|done|done].
      apply run_valid, valid_init. }
  destruct Hinv as [Hcons _]. split; [done|]. split.
  - intros c i Hc. by destruct (proj1 Hcons c i Hc).
  - intros c c' i Hc Hc'.
    destruct (proj1 Hcons c i Hc) as [_ H1].
    destruct (proj1 Hcons c' i Hc') as [_ H2]. congruence.
Qed.
End RegistryInvariants.

(** ** Opening, rendering and closing together *)

Section Composition.
Variable nanoid_output : nat -> string.
Implicit Types (w : World) (i k : string) (c : ModalComponent) (h : CreatedModal)
               (a : Action) (acts : list Action).

Local Abbreviation registerComponent := (registerComponent nanoid_output).
Local Abbreviation openModal := (openModal nanoid_output).
Local Abbreviation handle_open := (handle_open nanoid_output).

(** X11. Every action calls the listeners once or not at all.  The
    actions that end in zustand's [setState] ([open], [openModal],
    [closeModal], a [close] that pops a truthy id, a mapping installed by
    hand, teardown) replace the state object and call the listeners
    exactly once, with the new state and the one before; [createModal],
    a render pass and a [close] with nothing to close leave the state
    object and the mapping object in place and call nobody. *)
Theorem step_notifies_once_or_never a w :
  valid w →
  let w' := step nanoid_output a w in
  notified w' = notified w ++ (if notifies a w then [(state w', state w)] else [])
  ∧ (if notifies a w
     then state w' ≠ state w ∧ maps w !! current_modals w' = None
     else state w' = state w ∧ current_modals w' = current_modals w
          ∧ snapshot w' = snapshot w).
Proof.
  intros Hv w'. subst w'.
  assert (Hsw : ∀ e w0, objs w0 = objs w → state w0 = state w →
            notified w0 = notified w → maps w0 = maps w →
            notified (swapped e w0) = notified w ++ [(state (swapped e w0), state w)]
            ∧ state (swapped e w0) ≠ state w
            ∧ maps w !! current_modals (swapped e w0) = None).
  { intros e w0 Ho Hs Hn Hm. rewrite current_modals_swapped. simpl.
    rewrite Ho, Hs, Hn, Hm. split; [done|]. unfold valid in Hv.
    split; [lia|]. by apply lookup_ge_None_2. }
  destruct a as [c|h p|h|i c p|i|pairs| |]; unfold step, notifies.
  - simpl. rewrite app_nil_r. by repeat split.
  - rewrite handle_open_eq. simpl. set (w1 := with_arrays _ _).
    assert (Hv1 : valid w1) by exact Hv.
    rewrite openModal_eq by done.
    destruct (registerComponent_frame nanoid_output (component h) w1)
      as (Hm & Ho & Hs & Hn & _).
    by apply Hsw.
  - destruct (stack_cases (stack h w)) as [He|(s & x & Hs)].
    + rewrite handle_close_empty by done. rewrite He. simpl.
      rewrite app_nil_r. by repeat split.
    + rewrite (handle_close_snoc h s x w Hs), Hs, last_snoc. simpl.
      set (w1 := with_arrays _ w).
      assert (Hv1 : valid w1) by exact Hv.
      destruct (truthy x).
      * rewrite closeModal_eq by done. by apply Hsw.
      * rewrite app_nil_r. by repeat split.
  - rewrite openModal_eq by done.
    destruct (registerComponent_frame nanoid_output c w) as (Hm & Ho & Hs & Hn & _).
    by apply Hsw.
  - rewrite closeModal_eq by done. by apply Hsw.
  - rewrite setState_modals_eq by done. by apply Hsw.
  - unfold ModalRenderer. rewrite render_all_spec. simpl.
    rewrite app_nil_r. by repeat split.
  - rewrite ModalProvider_unmount_eq by done. by apply Hsw.
Qed.

(** X12. A render pass can be repeated.  It changes nothing but the
    console, so the next pass returns the same elements, one slot per
    stored instance, and hands the same warnings to [console.warn] once
    more: an instance that does not resolve is reported on every pass. *)
Theorem render_is_repeatable w :
  let w1 := snd (ModalRenderer w) in
  fst (ModalRenderer w1) = fst (ModalRenderer w)
  ∧ length (fst (ModalRenderer w)) = JsMap.size (snapshot w)
  ∧ console w1 = console w ++ warnings w
  ∧ console (snd (ModalRenderer w1)) = console w ++ warnings w ++ warnings w.
Proof.
  intros w1. subst w1. unfold ModalRenderer, warnings.
  rewrite !render_all_spec. simpl.
  split; [done|].
  split; [unfold JsMap.values, JsMap.size; by rewrite !length_map|].
  split; [done|].
  by rewrite <- (assoc_L (++)).
Qed.

(** X13. A newly opened modal is rendered last, by its own component.
    In a world whose registry is consistent and whose instances all
    resolve, opening an id that is not yet a key (with a non-empty,
    unused id from [nanoid()] if the component is new) leaves the
    rendered elements of the instances already there exactly as they
    were and adds one element after them: what [jsx] makes of the
    component given, of the props given laid over the two injected ones,
    and of the new id.  That element is keyed by the new id unless the
    props carry a [key], which then is its key; [key] is never one of
    its props, and every other prop is the one given, or else the
    injected one. *)
Theorem opened_modal_renders_last i c (p : option (gmap string JsValue)) w :
  valid w → registry_consistent w → all_resolve w →
  (componentRegistry w !! c = None →
     nanoid_output (nanoid_calls w) ≠ EmptyString
     ∧ componentIdMap w !! nanoid_output (nanoid_calls w) = None) →
  JsMap.get i (snapshot w) = None →
  let w' := openModal i c p w in
  let modal := ModalState.mk i (fst (registerComponent c w)) p in
  let e := jsx c (jsx_config modal) i in
  fst (ModalRenderer w') = fst (ModalRenderer w) ++ [Some e]
  ∧ el_type e = c
  ∧ el_key e
    = match default ∅ p !! "key" with
      | Some v => to_key v
      | None => KeyString i
      end
  ∧ el_props e !! "key" = None
  ∧ (∀ name, name ≠ "key" →
       el_props e !! name
       = match default ∅ p !! name with
         | Some v => Some v
         | None => injected_props modal !! name
         end).
Proof.
  intros Hv Hcons Hall Hfresh Hi w' modal e.
  split.
  2:{ destruct (jsx_spec c modal) as (Hty & Hnokey & Hprops & Hkey).
      split; [exact Hty|]. split; [exact Hkey|]. split; [exact Hnokey|exact Hprops]. }
  subst w' e modal.
  unfold ModalRenderer. rewrite !render_all_spec. simpl.
  rewrite snapshot_openModal by done.
  rewrite (JsMapFacts.set_absent _ _ _ Hi).
  unfold JsMap.values. rewrite !map_app. simpl. f_equal.
  - apply map_ext_in. intros m Hm.
    apply in_map_iff in Hm as ([k m'] & Hm' & Hin). simpl in Hm'. subst m'.
    apply list_elem_of_In in Hin. destruct (Hall k m Hin) as [C HC].
    unfold rendered, resolveComponent in *. rewrite openModal_eq by done. simpl.
    destruct (registerComponent_cases nanoid_output c w)
      as [(j & Hc & Hj & ->)|[Hf ->]]; simpl; [done|].
    rewrite lookup_insert_ne; [done|]. intros Heq.
    assert (Hnone : componentRegistry w !! c = None).
    { destruct (componentRegistry w !! c) as [i0|] eqn:Hc0; [|done].
      rewrite <- Hc0 in Hf.
      pose proof (truthy_opt_false_Some c i0 w Hf Hc0) as ->.
      by destruct (proj1 Hcons _ _ Hc0). }
    destruct (Hfresh Hnone) as [_ Hn]. rewrite Heq in Hn. congruence.
  - unfold rendered, resolveComponent. rewrite openModal_eq by done. simpl.
    destruct (registerComponent_cases nanoid_output c w)
      as [(j & Hc & Hj & ->)|[Hf ->]]; simpl.
    + destruct (proj1 Hcons _ _ Hc) as [_ ->]. done.
    + by rewrite lookup_insert_eq.
Qed.

(** X14. Instances of one component share its id.  With a consistent
    registry and a non-empty id from [nanoid()], opening the same
    component a second time (through the same handle, another handle or
    [openModal]) registers nothing and calls [nanoid()] for no component
    id: the registry and the id counter are as after the first open, and
    both entries carry the component id of the first. *)
Theorem second_open_reuses_component_id i1 i2 c
    (p1 p2 : option (gmap string JsValue)) w :
  valid w → registry_consistent w →
  nanoid_output (nanoid_calls w) ≠ EmptyString →
  let componentId := fst (registerComponent c w) in
  let w1 := openModal i1 c p1 w in
  let w2 := openModal i2 c p2 w1 in
  componentRegistry w1 !! c = Some componentId
  ∧ componentRegistry w2 = componentRegistry w1
  ∧ componentIdMap w2 = componentIdMap w1
  ∧ nanoid_calls w2 = nanoid_calls w1
  ∧ JsMap.get i2 (snapshot w2) = Some (ModalState.mk i2 componentId p2)
  ∧ (i1 ≠ i2 →
       JsMap.get i1 (snapshot w2) = Some (ModalState.mk i1 componentId p1)).
Proof.
  intros Hv Hcons Hne cid w1 w2.
  assert (Hv1 : valid w1) by by apply valid_openModal.
  assert (Hreg1 : componentRegistry w1 !! c = Some cid ∧ cid ≠ EmptyString).
  { subst w1 cid. rewrite openModal_eq by done. simpl.
    destruct (registerComponent_cases nanoid_output c w)
      as [(j & Hc & Hj & ->)|[Hf ->]]; simpl; [done|].
    by rewrite lookup_insert_eq. }
  destruct Hreg1 as [Hreg1 Hcid].
  pose proof (registerComponent_cached nanoid_output c cid w1 Hreg1 Hcid) as Hrc.
  assert (Hs1 : snapshot w1 = JsMap.set i1 (ModalState.mk i1 cid p1) (snapshot w))
    by by apply snapshot_openModal.
  assert (Hs2 : snapshot w2 = JsMap.set i2 (ModalState.mk i2 cid p2) (snapshot w1)).
  { subst w2. rewrite snapshot_openModal by done. by rewrite Hrc. }
  split; [done|].
  split; [subst w2; rewrite openModal_eq by done; by rewrite Hrc|].
  split; [subst w2; rewrite openModal_eq by done; by rewrite Hrc|].
  split; [subst w2; rewrite openModal_eq by done; by rewrite Hrc|].
  split; [rewrite Hs2; apply JsMapFacts.get_set_eq|].
  intros Hi. rewrite Hs2, JsMapFacts.get_set_ne by done.
  rewrite Hs1. apply JsMapFacts.get_set_eq.
Qed.

Lemma change_created h w w' :
  arrays_change nanoid_output w w' → created h w → created h w'.
Proof.
  unfold created. intros [Ha _|Ha _|r s Ha _ _|r s x Ha _ _]; rewrite Ha.
  - done.
  - rewrite length_app. simpl. lia.
  - by rewrite length_insert.
  - by rewrite length_insert.
Qed.

Lemma run_created acts h w :
  valid w → created h w → created h (run nanoid_output acts w).
Proof.
  revert w. induction acts as [|a acts IH]; intros w Hv Hc; [done|]. simpl.
  apply IH; [by apply step_valid|].
  eapply change_created; [|done]. by apply step_arrays_change.
Qed.

Lemma run_app acts1 acts2 w :
  run nanoid_output (acts1 ++ acts2) w
  = run nanoid_output acts2 (run nanoid_output acts1 w).
Proof. unfold run. by rewrite fold_left_app. Qed.

(** X15. A handle is a stack.  When [nanoid()] never repeats an id,
    never returns the empty string and none of the ids to come is a key
    of the store: opening [n] instances through a handle adds [n]
    entries, and [n] calls of [close] after that take them away again,
    last opened first, leaving the contents of the store and the
    handle's array as they were before the first open. *)
Theorem opens_then_closes_restore h (ps : list (option (gmap string JsValue))) w :
  (∀ m n, nanoid_output m = nanoid_output n → m = n) →
  (∀ n, nanoid_output n ≠ EmptyString) →
  valid w → created h w →
  (∀ n, (nanoid_calls w <= n)%nat →
        JsMap.get (nanoid_output n) (snapshot w) = None) →
  let w1 := run nanoid_output (map (AOpen h) ps) w in
  let w2 := run nanoid_output (repeat (AClose h) (length ps)) w1 in
  JsMap.size (snapshot w1) = JsMap.size (snapshot w) + length ps
  ∧ stack h w `prefix_of` stack h w1
  ∧ length (stack h w1) = length (stack h w) + length ps
  ∧ snapshot w2 = snapshot w
  ∧ stack h w2 = stack h w.
Proof.
  intros Hinj Hne. revert w.
  induction ps as [|p ps IH]; intros w Hv Hc Hfresh w1 w2.
  - subst w1 w2. simpl. split; [lia|].
    split; [exists []; by rewrite app_nil_r|]. split; [lia|]. by split.
  - set (w' := step nanoid_output (AOpen h p) w).
    destruct (handle_open_spec nanoid_output h p w Hv) as (Hi & Hv' & Ha' & Hs').
    set (i := fst (handle_open h p w)) in *.
    change (snd (handle_open h p w)) with w' in Hv', Ha', Hs'.
    rewrite <- Hi in Ha', Hs'.
    pose proof (nanoid_calls_handle_open nanoid_output h p w Hv) as Hlt.
    change (snd (handle_open h p w)) with w' in Hlt.
    assert (Hi_fresh : JsMap.get i (snapshot w) = None)
      by (rewrite Hi; by apply Hfresh).
    assert (Hc' : created h w') by by eapply created_insert_arrays.
    assert (Hst' : stack h w' = stack h w ++ [i])
      by exact (stack_insert_arrays h _ w w' Hc Ha').
    assert (Hfresh' : ∀ n, (nanoid_calls w' <= n)%nat →
              JsMap.get (nanoid_output n) (snapshot w') = None).
    { intros n Hn. rewrite Hs', JsMapFacts.get_set_ne; [apply Hfresh; lia|].
      rewrite Hi. intros Heq. apply Hinj in Heq. lia. }
    destruct (IH w' Hv' Hc' Hfresh') as (Hsz & Hpre & Hlen & Hsnap & Hstk).
    change (run nanoid_output (map (AOpen h) (p :: ps)) w)
      with (run nanoid_output (map (AOpen h) ps) w') in w1.
    fold w1 in Hsz, Hpre, Hlen, Hsnap, Hstk.
    set (w3 := run nanoid_output (repeat (AClose h) (length ps)) w1) in *.
    assert (Hw2 : w2 = handle_close h w3).
    { subst w2 w3.
      replace (repeat (AClose h) (length (p :: ps)))
        with (repeat (AClose h) (length ps) ++ [AClose h])
        by (simpl; by rewrite <- repeat_cons).
      rewrite run_app. reflexivity. }
    assert (Hv1 : valid w1) by by apply run_valid.
    assert (Hv3 : valid w3) by by apply run_valid.
    assert (Hc3 : created h w3) by (apply run_created; [done|]; by apply run_created).
    rewrite Hst' in Hstk. rewrite Hs' in Hsnap.
    destruct (handle_close_spec h _ i w3 Hv3 Hstk (eq_ind_r (λ x, x ≠ _) (Hne _) Hi))
      as (_ & Ha2 & Hs2).
    rewrite <- Hw2 in Ha2, Hs2.
    split.
    { rewrite Hsz, Hs', (JsMapFacts.size_set_absent _ _ _ Hi_fresh). simpl. lia. }
    split.
    { destruct Hpre as [l Hl]. exists (i :: l).
      by rewrite Hl, Hst', <- (assoc_L (++)). }
    split.
    { rewrite Hlen, Hst', length_app. simpl. lia. }
    split.
    { rewrite Hs2, Hsnap. by apply JsMapFacts.delete_set_absent. }
    exact (stack_insert_arrays h _ w3 w2 Hc3 Ha2).
Qed.
End Composition.

(** ** Keys: of the elements, and of the instances opened by handles *)

Section KeyProperties.
Variable nanoid_output : nat -> string.
Implicit Types (w : World) (i k : string) (c : ModalComponent) (h : CreatedModal)
               (a : Action) (acts : list Action).

Local Abbreviation handle_open := (handle_open nanoid_output).
Local Abbreviation keys_from_nanoid := (keys_from_nanoid nanoid_output).

Lemma rendered_keys (l : JsMap.t ModalState.t) w :
  (∀ k m, (k, m) ∈ l →
     ModalState.id m = k ∧ is_Some (resolveComponent (ModalState.componentId m) w)) →
  map (option_map el_key) (map (λ modal, rendered modal w) (JsMap.values l))
  = map (λ kv, Some (entry_key kv)) l.
Proof.
  induction l as [|[k m] l IH]; intros H; simpl; [done|].
  destruct (H k m) as [Hid [C HC]]; [apply elem_of_cons; by left|].
  unfold rendered at 1. rewrite HC. simpl.
  rewrite jsx_config_key. unfold entry_key at 1. simpl. rewrite Hid. f_equal.
  apply IH. intros k' m' Hin. apply H. by apply elem_of_cons; right.
Qed.

(** X16. The React keys of a render pass.  As long as no mapping was
    installed by hand, a render pass returns exactly one element per
    store entry, in the order of the store, keyed by the entry's own
    [key] prop when it has one and by its store key otherwise.  The
    store's keys are pairwise different, so when no stored instance has
    a [key] prop the keys of the elements are the store's keys and no two
    elements share one; instances opened with the same [key] prop do
    share it. *)
Theorem rendered_keys_follow_key_prop acts :
  api_only acts →
  let w := run nanoid_output acts init_world in
  map (option_map el_key) (fst (ModalRenderer w))
  = map (λ kv, Some (entry_key kv)) (snapshot w)
  ∧ NoDup (JsMap.keys (snapshot w))
  ∧ ((∀ k m, (k, m) ∈ snapshot w →
        default ∅ (ModalState.props m) !! "key" = None) →
     map (option_map el_key) (fst (ModalRenderer w))
     = map (λ k, Some (KeyString k)) (JsMap.keys (snapshot w))
     ∧ NoDup (map (option_map el_key) (fst (ModalRenderer w)))).
Proof.
  intros Hapi w.
  destruct (run_all_resolve nanoid_output acts Hapi) as (_ & Hall & _).
  fold w in Hall.
  assert (Hkeys : NoDup (JsMap.keys (snapshot w)) ∧ keyed_by_id w).
  { subst w. clear Hall. induction acts as [|a acts IH] using rev_ind.
    - simpl. split; [constructor|]. intros k m Hin. by apply elem_of_nil in Hin.
    - apply api_only_snoc in Hapi as [Hapi Ha]. destruct (IH Hapi) as [Hnd Hkey].
      rewrite run_snoc.
      assert (Hv : valid (run nanoid_output acts init_world))
        by apply run_valid, valid_init.
      destruct (step_store_keys nanoid_output a _ Hv) as [Hstep_nd Hstep_key].
      split; [by apply Hstep_nd|by apply Hstep_key]. }
  destruct Hkeys as [Hnd Hkey].
  assert (Heq : map (option_map el_key) (fst (ModalRenderer w))
                = map (λ kv, Some (entry_key kv)) (snapshot w)).
  { unfold ModalRenderer. rewrite render_all_spec. simpl.
    apply rendered_keys. intros k m Hin. split; [by apply Hkey|by eapply Hall]. }
  split; [done|]. split; [done|].
  intros Hnokey.
  assert (Heq' : map (option_map el_key) (fst (ModalRenderer w))
                 = map (λ k, Some (KeyString k)) (JsMap.keys (snapshot w))).
  { rewrite Heq. unfold JsMap.keys. rewrite map_map.
    apply map_ext_in. intros [k m] Hin. apply list_elem_of_In in Hin.
    unfold entry_key. simpl. by rewrite (Hnokey k m Hin). }
  split; [done|]. rewrite Heq'.
  assert (Hinj : Inj eq eq (λ k, Some (KeyString k))) by (by intros k1 k2 [= ->]).
  by apply (NoDup_fmap_2 (λ k, Some (KeyString k))).
Qed.

Lemma elem_of_keys_set {V} (m : JsMap.t V) k v k' :
  k' ∈ JsMap.keys (JsMap.set k v m) → k' = k ∨ k' ∈ JsMap.keys m.
Proof.
  unfold JsMap.keys. intros Hin. apply list_elem_of_In, in_map_iff in Hin.
  destruct Hin as ([k0 v0] & <- & Hin). apply list_elem_of_In in Hin.
  apply JsMapOrder.elem_of_set in Hin as [[-> _]|Hin]; [by left|]. right.
  apply list_elem_of_In, in_map_iff. exists (k0, v0). split; [done|].
  by apply list_elem_of_In.
Qed.

Lemma elem_of_keys_delete {V} (m : JsMap.t V) k k' :
  k' ∈ JsMap.keys (JsMap.delete k m) → k' ∈ JsMap.keys m.
Proof.
  intros Hin. eapply elem_of_sublist; [exact Hin|]. apply JsMapOrder.keys_delete_sublist.
Qed.

Lemma step_keys_from_nanoid a w :
  valid w → chooses_id a = false → keys_from_nanoid w →
  keys_from_nanoid (step nanoid_output a w).
Proof.
  intros Hv Ha Hinv.
  assert (Hmono : ∀ w', (nanoid_calls w <= nanoid_calls w')%nat →
            (∀ k, k ∈ JsMap.keys (snapshot w') → k ∈ JsMap.keys (snapshot w)) →
            keys_from_nanoid w').
  { intros w' Hle Hsub k Hk. destruct (Hinv k (Hsub k Hk)) as (n & Hlt & ->).
    exists n. split; [lia|done]. }
  destruct a as [c|h p|h|i c p|i|pairs| |]; try discriminate; unfold step.
  - by apply Hmono.
  - destruct (handle_open_spec nanoid_output h p w Hv) as (Hi & _ & _ & Hs).
    pose proof (nanoid_calls_handle_open nanoid_output h p w Hv) as Hlt.
    intros k Hk. rewrite Hs in Hk. apply elem_of_keys_set in Hk as [->|Hk].
    + exists (nanoid_calls w). split; [lia|done].
    + destruct (Hinv k Hk) as (n & Hn & ->). exists n. split; [lia|done].
  - destruct (stack_cases (stack h w)) as [He|(s & x & Hs)].
    + rewrite handle_close_empty by done. by apply Hmono.
    + rewrite (handle_close_snoc h s x w Hs). simpl. destruct (truthy x).
      * apply Hmono; [by rewrite closeModal_eq|].
        intros k. rewrite snapshot_closeModal by exact Hv. apply elem_of_keys_delete.
      * by apply Hmono.
  - apply Hmono; [by rewrite closeModal_eq|].
    intros k. rewrite snapshot_closeModal by done. apply elem_of_keys_delete.
  - unfold ModalRenderer. rewrite render_all_spec. by apply Hmono.
  - rewrite ModalProvider_unmount_eq by done. apply Hmono; [done|].
    intros k. rewrite snapshot_swapped. by intros ?%elem_of_nil.
Qed.

Lemma opens_by_handle_snoc acts a :
  opens_by_handle (acts ++ [a]) → opens_by_handle acts ∧ chooses_id a = false.
Proof.
  unfold opens_by_handle. rewrite Forall_app, Forall_singleton. tauto.
Qed.

(** X17. Ids of instances never collide when handles do the opening.
    When [nanoid()] never repeats an id, in every world reached without
    a caller-chosen id ([openModal] called directly, or a mapping
    installed by hand), the id that the next [open] gets is not a key of
    the store: every [open] adds an entry and overwrites none. *)
Theorem handle_ids_never_collide acts h (p : option (gmap string JsValue)) :
  (∀ m n, nanoid_output m = nanoid_output n → m = n) →
  opens_by_handle acts →
  let w := run nanoid_output acts init_world in
  JsMap.get (fst (handle_open h p w)) (snapshot w) = None
  ∧ JsMap.size (snapshot (snd (handle_open h p w))) = S (JsMap.size (snapshot w))
  ∧ (∀ k, k ∈ JsMap.keys (snapshot w) →
       JsMap.get k (snapshot (snd (handle_open h p w))) = JsMap.get k (snapshot w)).
Proof.
  intros Hinj Hacts w.
  assert (Hinv : keys_from_nanoid w).
  { subst w. induction acts as [|a acts IH] using rev_ind.
    - intros k Hk. by apply elem_of_nil in Hk.
    - apply opens_by_handle_snoc in Hacts as [Hacts Ha].
      rewrite run_snoc. apply step_keys_from_nanoid; [|exact Ha|by apply IH].
      apply run_valid, valid_init. }
  assert (Hv : valid w) by apply run_valid, valid_init.
  destruct (handle_open_spec nanoid_output h p w Hv) as (Hi & _ & _ & Hs).
  assert (Hfresh : JsMap.get (fst (handle_open h p w)) (snapshot w) = None).
  { rewrite Hi. apply JsMapFacts.get_None_keys. intros Hin.
    destruct (Hinv _ Hin) as (n & Hlt & Heq). apply Hinj in Heq. lia. }
  split; [done|]. rewrite Hs, <- Hi.
  split; [by apply JsMapFacts.size_set_absent|].
  intros k Hk. apply JsMapFacts.get_set_ne. intros <-.
  by apply JsMapFacts.get_None_keys in Hfresh.
Qed.
End KeyProperties.

(** ** The further properties at concrete inputs *)

Lemma openModal_overwrites_in_place_witness :
  valid demo_w3
  ∧ JsMap.get "k" (snapshot demo_w3) = Some demo_modal
  ∧ JsMap.keys (snapshot (openModal demo_nanoid "k" SimpleModal None demo_w3))
    = JsMap.keys (snapshot demo_w3)
  ∧ JsMap.size (snapshot (openModal demo_nanoid "k" SimpleModal None demo_w3))
    = JsMap.size (snapshot demo_w3).
Proof.
  assert (Hold : JsMap.get "k" (snapshot demo_w3) = Some demo_modal) by reflexivity.
  pose proof (openModal_overwrites_in_place demo_nanoid "k" SimpleModal None demo_w3
                demo_modal valid_demo_w3 Hold) as H.
  cbv zeta in H. destruct H as (H1 & H2 & _).
  split; [exact valid_demo_w3|]. split; [exact Hold|]. split; [exact H1|exact H2].
Defined.

Lemma open_returns_live_id_witness :
  valid demo_w3 ∧ created demo_h1 demo_w3
  ∧ last (stack demo_h1 (snd (handle_open demo_nanoid demo_h1 (title "B") demo_w3)))
    = Some (fst (handle_open demo_nanoid demo_h1 (title "B") demo_w3)).
Proof.
  pose proof (open_returns_live_id demo_nanoid demo_h1 (title "B") demo_w3
                valid_demo_w3 created_demo_h1) as H.
  cbv zeta in H. destruct H as (_ & H & _).
  split; [exact valid_demo_w3|]. split; [exact created_demo_h1|exact H].
Defined.

Lemma closeModal_twice_and_commute_witness :
  valid demo_w3
  ∧ snapshot (closeModal "k" (closeModal "k" demo_w3)) = snapshot (closeModal "k" demo_w3)
  ∧ snapshot (closeModal "k" (closeModal "z" demo_w3))
    = snapshot (closeModal "z" (closeModal "k" demo_w3)).
Proof.
  destruct (closeModal_twice_and_commute "k" "z" demo_w3 valid_demo_w3) as (H1 & _ & H2).
  split; [exact valid_demo_w3|]. split; [exact H1|exact H2].
Defined.

Lemma close_pops_own_top_only_witness :
  valid demo_w3
  ∧ stack demo_h1 (handle_close demo_h1 demo_w3) = removelast (stack demo_h1 demo_w3)
  ∧ componentRegistry (handle_close demo_h1 demo_w3) = componentRegistry demo_w3.
Proof.
  destruct (close_pops_own_top_only demo_h1 demo_w3 valid_demo_w3) as (H1 & _ & _ & H2 & _).
  split; [exact valid_demo_w3|]. split; [exact H1|exact H2].
Defined.

Lemma teardown_keeps_registry_and_stacks_witness :
  valid demo_w3
  ∧ stack demo_h1 (ModalProvider_unmount demo_w3) = stack demo_h1 demo_w3
  ∧ snapshot (handle_close demo_h1 (ModalProvider_unmount demo_w3)) = JsMap.empty.
Proof.
  pose proof (teardown_keeps_registry_and_stacks demo_h1 demo_w3 valid_demo_w3) as H.
  cbv zeta in H. destruct H as (_ & _ & _ & H1 & _ & H2).
  split; [exact valid_demo_w3|]. split; [exact H1|exact H2].
Defined.

Lemma api_only_demo_run : api_only demo_run.
Proof. unfold api_only, demo_run, demo_acts. simpl. repeat constructor. Qed.

Lemma api_only_never_warns_witness :
  api_only demo_run
  ∧ console (snd (ModalRenderer (run demo_nanoid demo_run init_world))) = []
  ∧ length (fst (ModalRenderer (run demo_nanoid demo_run init_world)))
    = JsMap.size (snapshot (run demo_nanoid demo_run init_world)).
Proof.
  pose proof (api_only_never_warns demo_nanoid demo_run api_only_demo_run) as H.
  cbv zeta in H. destruct H as (_ & _ & H1 & H2).
  split; [exact api_only_demo_run|]. split; [exact H2|exact H1].
Defined.

Lemma registered_id_is_stable_witness :
  valid demo_w3
  ∧ componentRegistry demo_w3 !! TitleModal = Some "xk"
  ∧ "xk" ≠ EmptyString
  ∧ componentRegistry (run demo_nanoid demo_later demo_w3) !! TitleModal = Some "xk".
Proof.
  assert (Hc : componentRegistry demo_w3 !! TitleModal = Some "xk") by reflexivity.
  assert (Hne : "xk" ≠ EmptyString) by discriminate.
  destruct (registered_id_is_stable demo_nanoid demo_later TitleModal "xk" demo_w3
              valid_demo_w3 Hc Hne) as [H _].
  split; [exact valid_demo_w3|]. split; [exact Hc|]. split; [exact Hne|exact H].
Defined.

Lemma registry_consistent_reachable_witness :
  (∀ m n, demo_nanoid m = demo_nanoid n → m = n)
  ∧ (∀ n, demo_nanoid n ≠ EmptyString)
  ∧ registry_consistent (run demo_nanoid demo_run init_world).
Proof.
  pose proof (registry_consistent_reachable demo_nanoid demo_nanoid_injective
                demo_nanoid_nonempty demo_run) as H.
  cbv zeta in H. destruct H as [H _].
  split; [exact demo_nanoid_injective|]. split; [exact demo_nanoid_nonempty|exact H].
Defined.

Lemma step_notifies_once_or_never_witness :
  valid demo_w3
  ∧ length (notified (step demo_nanoid (AClose demo_h1) demo_w3))
    = S (length (notified demo_w3))
  ∧ notified (step demo_nanoid (AClose demo_h2) demo_w3) = notified demo_w3.
Proof.
  pose proof (step_notifies_once_or_never demo_nanoid (AClose demo_h1) demo_w3
                valid_demo_w3) as H1.
  pose proof (step_notifies_once_or_never demo_nanoid (AClose demo_h2) demo_w3
                valid_demo_w3) as H2.
  cbv zeta in H1, H2. destruct H1 as [H1 _]. destruct H2 as [H2 _].
  split; [exact valid_demo_w3|]. split.
  - rewrite H1. change (notifies (AClose demo_h1) demo_w3) with true.
    rewrite length_app. simpl. lia.
  - rewrite H2. change (notifies (AClose demo_h2) demo_w3) with false.
    apply app_nil_r.
Defined.

Lemma registry_consistent_demo_w3 : registry_consistent demo_w3.
Proof.
  assert (Hr : componentRegistry demo_w3 = <[TitleModal := "xk"]> ∅) by reflexivity.
  assert (Hi : componentIdMap demo_w3 = <["xk" := TitleModal]> ∅) by reflexivity.
  split; intros x y; rewrite Hr, Hi.
  - intros [[<- <-]|[_ H]]%lookup_insert_Some; [|by rewrite lookup_empty in H].
    split; [discriminate|apply lookup_insert_eq].
  - intros [[<- <-]|[_ H]]%lookup_insert_Some; [|by rewrite lookup_empty in H].
    apply lookup_insert_eq.
Qed.

Lemma all_resolve_demo_w3 : all_resolve demo_w3.
Proof.
  intros k m Hin.
  assert (Hs : snapshot demo_w3 = [("k", demo_modal)]) by reflexivity.
  rewrite Hs in Hin. apply list_elem_of_singleton in Hin as [= -> ->].
  exists TitleModal. reflexivity.
Qed.

(** A second instance, of a component not yet registered and with a
    [key] prop, opened next to the one that [demo_w3] holds. *)
Lemma opened_modal_renders_last_witness :
  valid demo_w3 ∧ registry_consistent demo_w3 ∧ all_resolve demo_w3
  ∧ demo_nanoid (nanoid_calls demo_w3) ≠ EmptyString
  ∧ componentIdMap demo_w3 !! demo_nanoid (nanoid_calls demo_w3) = None
  ∧ JsMap.get "second" (snapshot demo_w3) = None
  ∧ length (fst (ModalRenderer demo_w3)) = 1
  ∧ ∃ e,
      fst (ModalRenderer
             (openModal demo_nanoid "second" SimpleModal
                (keyed_props "custom-key" "B") demo_w3))
      = fst (ModalRenderer demo_w3) ++ [Some e]
      ∧ el_type e = SimpleModal
      ∧ el_key e = KeyString "custom-key"
      ∧ el_props e !! "key" = None
      ∧ el_props e !! "title" = Some (VString "B")
      ∧ el_props e !! "id" = Some (VString "second").
Proof.
  assert (Hne : demo_nanoid (nanoid_calls demo_w3) ≠ EmptyString)
    by (vm_compute; discriminate).
  assert (Hnew : componentIdMap demo_w3 !! demo_nanoid (nanoid_calls demo_w3) = None)
    by reflexivity.
  assert (Hi : JsMap.get "second" (snapshot demo_w3) = None) by reflexivity.
  pose proof (opened_modal_renders_last demo_nanoid "second" SimpleModal
                (keyed_props "custom-key" "B") demo_w3 valid_demo_w3
                registry_consistent_demo_w3 all_resolve_demo_w3
                (λ _, conj Hne Hnew) Hi) as H.
  cbv zeta in H. destruct H as (Hout & Hty & Hkey & Hnokey & Hprops).
  split; [exact valid_demo_w3|]. split; [exact registry_consistent_demo_w3|].
  split; [exact all_resolve_demo_w3|]. split; [exact Hne|]. split; [exact Hnew|].
  split; [exact Hi|]. split; [reflexivity|].
  eexists. split; [exact Hout|]. split; [exact Hty|].
  split; [rewrite Hkey; reflexivity|]. split; [exact Hnokey|].
  split; [rewrite Hprops by discriminate; reflexivity|].
  rewrite Hprops by discriminate. reflexivity.
Defined.

Lemma second_open_reuses_component_id_witness :
  valid init_world ∧ registry_consistent init_world
  ∧ demo_nanoid (nanoid_calls init_world) ≠ EmptyString
  ∧ nanoid_calls (openModal demo_nanoid "b" TitleModal None
                    (openModal demo_nanoid "a" TitleModal None init_world))
    = nanoid_calls (openModal demo_nanoid "a" TitleModal None init_world).
Proof.
  assert (Hne : demo_nanoid (nanoid_calls init_world) ≠ EmptyString)
    by (vm_compute; discriminate).
  pose proof (second_open_reuses_component_id demo_nanoid "a" "b" TitleModal None None
                init_world valid_init registry_consistent_init Hne) as H.
  cbv zeta in H. destruct H as (_ & _ & _ & H & _).
  split; [exact valid_init|]. split; [exact registry_consistent_init|].
  split; [exact Hne|exact H].
Defined.

Lemma valid_demo_w2 : valid demo_w2.
Proof. unfold valid. vm_compute. lia. Qed.

Lemma created_demo_h1_w2 : created demo_h1 demo_w2.
Proof. unfold created. vm_compute. lia. Qed.

Lemma demo_w2_store_empty n : JsMap.get (demo_nanoid n) (snapshot demo_w2) = None.
Proof. reflexivity. Qed.

Lemma opens_then_closes_restore_witness :
  (∀ m n, demo_nanoid m = demo_nanoid n → m = n)
  ∧ (∀ n, demo_nanoid n ≠ EmptyString)
  ∧ valid demo_w2 ∧ created demo_h1 demo_w2
  ∧ (∀ n, (nanoid_calls demo_w2 <= n)%nat →
          JsMap.get (demo_nanoid n) (snapshot demo_w2) = None)
  ∧ snapshot
      (run demo_nanoid (repeat (AClose demo_h1) (length [title "A"; title "B"; None]))
         (run demo_nanoid (map (AOpen demo_h1) [title "A"; title "B"; None]) demo_w2))
    = snapshot demo_w2.
Proof.
  pose proof (opens_then_closes_restore demo_nanoid demo_h1 [title "A"; title "B"; None]
                demo_w2 demo_nanoid_injective demo_nanoid_nonempty valid_demo_w2
                created_demo_h1_w2 (λ n _, demo_w2_store_empty n)) as H.
  cbv zeta in H. destruct H as (_ & _ & _ & H & _).
  split; [exact demo_nanoid_injective|]. split; [exact demo_nanoid_nonempty|].
  split; [exact valid_demo_w2|]. split; [exact created_demo_h1_w2|].
  split; [exact (λ n _, demo_w2_store_empty n)|exact H].
Defined.

Lemma api_only_demo_same_key_run : api_only demo_same_key_run.
Proof. unfold api_only, demo_same_key_run, demo_acts. simpl. repeat constructor. Qed.

(** Two instances opened with the same [key] prop: two store keys, one
    React key. *)
Lemma rendered_keys_follow_key_prop_witness :
  api_only demo_same_key_run
  ∧ map (option_map el_key)
        (fst (ModalRenderer (run demo_nanoid demo_same_key_run init_world)))
    = map (λ kv, Some (entry_key kv))
          (snapshot (run demo_nanoid demo_same_key_run init_world))
  ∧ map (λ kv, Some (entry_key kv))
        (snapshot (run demo_nanoid demo_same_key_run init_world))
    = [Some (KeyString "same-key"); Some (KeyString "same-key")]
  ∧ JsMap.keys (snapshot (run demo_nanoid demo_same_key_run init_world))
    = ["k"; "xxk"].
Proof.
  pose proof (rendered_keys_follow_key_prop demo_nanoid demo_same_key_run
                api_only_demo_same_key_run) as H.
  cbv zeta in H. destruct H as [H _].
  split; [exact api_only_demo_same_key_run|]. split; [exact H|].
  split; vm_compute; reflexivity.
Defined.

Lemma opens_by_handle_demo_run : opens_by_handle demo_run.
Proof. unfold opens_by_handle, demo_run, demo_acts. simpl. repeat constructor. Qed.

Lemma handle_ids_never_collide_witness :
  (∀ m n, demo_nanoid m = demo_nanoid n → m = n)
  ∧ opens_by_handle demo_run
  ∧ JsMap.size (snapshot (snd (handle_open demo_nanoid demo_h1 (title "B")
                                 (run demo_nanoid demo_run init_world))))
    = S (JsMap.size (snapshot (run demo_nanoid demo_run init_world))).
Proof.
  pose proof (handle_ids_never_collide demo_nanoid demo_run demo_h1 (title "B")
                demo_nanoid_injective opens_by_handle_demo_run) as H.
  cbv zeta in H. destruct H as (_ & H & _).
  split; [exact demo_nanoid_injective|]. split; [exact opens_by_handle_demo_run|exact H].
Defined.

Lemma store_keys_invariant_witness :
  api_only demo_run
  ∧ NoDup (JsMap.keys (snapshot (run demo_nanoid demo_run init_world)))
  ∧ keyed_by_id (run demo_nanoid demo_run init_world).
Proof.
  pose proof (store_keys_invariant demo_nanoid demo_run) as H.
  cbv zeta in H. destruct H as [H1 H2].
  split; [exact api_only_demo_run|]. split; [exact H1|exact (H2 api_only_demo_run)].
Defined.

Lemma createModal_makes_fresh_handle_witness :
  created demo_h1 demo_w2
  ∧ ids demo_h1 ≠ ids (fst (createModal TitleModal demo_w2))
  ∧ stack demo_h1 (snd (createModal TitleModal demo_w2)) = stack demo_h1 demo_w2.
Proof.
  pose proof (createModal_makes_fresh_handle TitleModal demo_w2) as H.
  cbv zeta in H. destruct H as (_ & _ & _ & _ & H & _).
  destruct (H demo_h1 created_demo_h1_w2) as (_ & H1 & H2).
  split; [exact created_demo_h1_w2|]. split; [exact H1|exact H2].
Defined.
